(** * The Markowitz queue of filter/markowitz.c

    A shallow embedding of the indexed binary min-heap that drives the
    merge step (arrays [MKZQ] and [MKZA] of [filter_matrix_t]) and of the
    three cost policies, followed by the properties of the specification
    that concern them.

    C arrays are lists of integers read and written through an integer
    index; machine integers are elements of [Z] whose conversions are
    written out ([int_of] for [int]/[int32_t], [uint_of] for
    [unsigned int], [idx] for [index_t]). *)

From Stdlib Require Import ZArith List Lia Bool Permutation.
Import ListNotations.
Open Scope Z_scope.

(** ** Arrays *)

(** Length of an array, as an integer. *)
Definition Zlen {T : Type} (a : list T) : Z := Z.of_nat (length a).

(** [a[i]].  Reading outside the array is undefined in C; the model
    returns 0 there.  The invariants of the queue ([queue_wf],
    [bijection]) keep the accesses to [Q] and [A] in range. *)
Definition rd (a : list Z) (i : Z) : Z :=
  if i <? 0 then 0 else nth (Z.to_nat i) a 0.

(** [a[i]] for an array of arrays ([index_t **R]). *)
Definition rdl (a : list (list Z)) (i : Z) : list Z :=
  if i <? 0 then [] else nth (Z.to_nat i) a [].

Fixpoint upd_nth (a : list Z) (n : nat) (v : Z) : list Z :=
  match a, n with
  | [], _ => []
  | _ :: t, O => v :: t
  | h :: t, S m => h :: upd_nth t m v
  end.

(** [a[i] = v].  Outside the array the model leaves [a] as it is. *)
Definition wr (a : list Z) (i : Z) (v : Z) : list Z :=
  if i <? 0 then a else upd_nth a (Z.to_nat i) v.

(** The integers [lo, lo+1, ..., lo+len-1]. *)
Fixpoint Zseq (lo : Z) (len : nat) : list Z :=
  match len with
  | O => []
  | S m => lo :: Zseq (lo + 1) m
  end.

(** ** Machine integers *)

(** Conversion to [int] / [int32_t]: reduction modulo 2^32 into
    [-2^31, 2^31). *)
Definition int_of (x : Z) : Z := (x + 2 ^ 31) mod 2 ^ 32 - 2 ^ 31.

(** Conversion to [unsigned int]. *)
Definition uint_of (x : Z) : Z := x mod 2 ^ 32.

Definition int_range (x : Z) : Prop := - 2 ^ 31 <= x < 2 ^ 31.

(** ** Outcome of an operation guarded by [ASSERT] *)

(** Modelled from the spec: the macro [ASSERT] (macros.h) is not part of
    the sources at hand; sections 4.2 and 7 of the specification describe
    a failed assertion as a fatal abort, never a recoverable error. *)
Inductive outcome (T : Type) : Type :=
| Done (r : T)
| AssertionFailure.
Arguments Done {T} r.
Arguments AssertionFailure {T}.

(** ** The matrix *)

(** The selector [mat->mkztype].  The [switch] of [MkzCount] names three
    values and sends every other one to its [default] label. *)
Inductive mkztype_t : Type :=
| MKZTYPE_CAVALLAR
| MKZTYPE_PURE
| MKZTYPE_LIGHT
| MKZTYPE_other (v : Z).

(** The fields of [filter_matrix_t] that markowitz.c touches.
    [R[j][0]] is the number of rows listed for column [j] and
    [R[j][1..]] are their indices. *)
Record filter_matrix_t : Type := mk_filter_matrix {
  wt : list Z;
  R : list (list Z);
  rowLength : list Z;
  wmstmax : Z;
  mkztype : mkztype_t;
  MKZQ : list Z;
  MKZA : list Z
}.

Definition set_queue (mat : filter_matrix_t) (Q A : list Z) : filter_matrix_t :=
  mk_filter_matrix (wt mat) (R mat) (rowLength mat) (wmstmax mat)
                   (mkztype mat) Q A.

Definition set_wt (mat : filter_matrix_t) (w : list Z) : filter_matrix_t :=
  mk_filter_matrix w (R mat) (rowLength mat) (wmstmax mat)
                   (mkztype mat) (MKZQ mat) (MKZA mat).

(** The public operations that change the matrix or the queue, as the
    steps of a merge run. *)
Inductive queue_op : Type :=
| OpUpdate (j : Z)
| OpUpdateN (j : list Z) (n : Z)
| OpIncrCol (j : Z)
| OpDecreaseColWeight (j : Z).

(** ** Sample data *)

(** The value of [MKZ_INF] when [index_t] has 32 bits. *)
Definition sample_INF : Z := 4294967295.

(** A [weightSum] for rows that share the pivot column and nothing else. *)
Definition sample_weightSum (mat : filter_matrix_t) (i1 i2 j : Z) : Z :=
  rd (rowLength mat) i1 + rd (rowLength mat) i2 - 2.

(** A [weightSum] for rows that are equal: their sum is empty. *)
Definition equal_rows_weightSum (mat : filter_matrix_t) (i1 i2 j : Z) : Z := 0.

(** A [minCostUsingMST] that finds every tree free of fill-in. *)
Definition sample_minCostUsingMST (mat : filter_matrix_t) (m : Z)
  (ind : list Z) (j : Z) : Z := 0.

Definition sample_incrS (w : Z) : Z := if w <? 2147483647 then w + 1 else w.
Definition sample_decrS (w : Z) : Z := if 0 <? w then w - 1 else w.

(** Five rows over five columns of weights [w0], 1, 2, 3 and 5 (column 4
    is in every row, column 3 in rows 0 to 2, column 2 in rows 0 and 1,
    column 1 in row 0), with the queue as it stands when the costs are the
    weights 0, 1, 2, 3, 5. *)
Definition sample_matrix (ty : mkztype_t) (w0 : Z) : filter_matrix_t :=
  {| wt := [w0; 1; 2; 3; 5];
     R := [[0]; [1; 0]; [2; 0; 1]; [3; 0; 1; 2]; [5; 0; 1; 2; 3; 4]];
     rowLength := [4; 3; 2; 1; 1];
     wmstmax := 7;
     mkztype := ty;
     MKZQ := [5; 0; 0; 0; 1; 1; 2; 2; 3; 3; 4; 5];
     MKZA := [1; 2; 3; 4; 5] |}.

(** One column of weight 3 whose three rows have 2^31 + 4 entries each. *)
Definition long_rows_matrix : filter_matrix_t :=
  {| wt := [3];
     R := [[3; 0; 1; 2]];
     rowLength := [2147483652; 2147483652; 2147483652];
     wmstmax := 1;
     mkztype := MKZTYPE_PURE;
     MKZQ := [1; 0; 0; 0];
     MKZA := [1] |}.

(** One column of weight 2 whose two rows have 2^31 entries each. *)
Definition twin_rows_matrix : filter_matrix_t :=
  {| wt := [2];
     R := [[2; 0; 1]];
     rowLength := [2147483648; 2147483648];
     wmstmax := 2;
     mkztype := MKZTYPE_LIGHT;
     MKZQ := [1; 0; 0; 0];
     MKZA := [1] |}.

(** The run of scenario 6 of the specification: the weight of column 0
    goes from 0 to 4, then its cost is updated. *)
Definition sample_run : list queue_op :=
  [OpIncrCol 0; OpIncrCol 0; OpIncrCol 0; OpIncrCol 0; OpUpdate 0].

(** The sample once column 4 has been marked dead and its slot given up:
    four live slots are left. *)
Definition dead_column_matrix : filter_matrix_t :=
  set_queue (sample_matrix MKZTYPE_CAVALLAR 0)
            [4; 0; 0; 0; 1; 1; 2; 2; 3; 3; 4; 5]
            [1; 2; 3; 4; sample_INF].

(** Three columns of weights 0, 5 and 1 under the Cavallar policy, queued
    as a heap: the root holds cost 0, its two sons the costs 5 and 1.
    The dearest column sits in slot 2, not in the last slot. *)
Definition dear_left_son_matrix : filter_matrix_t :=
  {| wt := [0; 5; 1];
     R := [[0]; [5; 0; 1; 2; 3; 4]; [1; 0]];
     rowLength := [2; 1; 1; 1; 1];
     wmstmax := 7;
     mkztype := MKZTYPE_CAVALLAR;
     MKZQ := [3; 0; 0; 0; 1; 5; 2; 1];
     MKZA := [1; 2; 3] |}.

(** A whole run on it: the cost of each column is recomputed once. *)
Definition recount_run : list queue_op := [OpUpdate 0; OpUpdate 1; OpUpdate 2].

(** Three slots, the last of which is cheaper than the root. *)
Definition odd_queue : list Z := [3; 0; 0; 1; 1; 2; 2; 0].

Section Markowitz.

(** [index_t] is an unsigned type of [index_bits] bits (32 or 64 according
    to the build), [MKZ_INF] the value that marks a dead column; both are
    declared in headers that are not part of the sources at hand. *)
Variable index_bits : Z.
Variable MKZ_INF : Z.
Hypothesis index_bits_int : 32 <= index_bits.

(** The helpers of other modules: the weight of the sum of two rows and
    the cost of a minimal spanning tree of the rows of a column. *)
Variable weightSum : filter_matrix_t -> Z -> Z -> Z -> Z.
Variable minCostUsingMST : filter_matrix_t -> Z -> list Z -> Z -> Z.

(** [minCostUsingMST] is a C function of result type [int]. *)
Hypothesis minCostUsingMST_int :
  forall mat m ind j, int_range (minCostUsingMST mat m ind j).

(** The two helpers read the rows of the matrix, never the queue. *)
Hypothesis weightSum_queue :
  forall mat Q A i1 i2 j,
    weightSum (set_queue mat Q A) i1 i2 j = weightSum mat i1 i2 j.
Hypothesis minCostUsingMST_queue :
  forall mat Q A m ind j,
    minCostUsingMST (set_queue mat Q A) m ind j = minCostUsingMST mat m ind j.

(** Conversion to [index_t]. *)
Definition idx (x : Z) : Z := x mod 2 ^ index_bits.

(** Modelled from the spec: the macro [matLengthRow] (merge_replay_matrix.h)
    is not part of the sources at hand; section 3 of the specification
    gives it as [rowLength[row]], the number of nonzero entries of a row,
    here an [index_t]. *)
Definition matLengthRow (mat : filter_matrix_t) (i : Z) : Z :=
  idx (rd (rowLength mat) i).

(** ** The queue *)

(** [#define MkzGet(Q, i, r) (Q[((i)<<1)+(r)])] *)
Definition MkzGet (Q : list Z) (i r : Z) : Z :=
  rd Q (idx (idx (Z.shiftl i 1) + r)).

(** [#define MkzSet(Q, i, r, val) (Q[((i)<<1)+(r)] = (val))] *)
Definition MkzSet (Q : list Z) (i r val : Z) : list Z :=
  wr Q (idx (idx (Z.shiftl i 1) + r)) val.

Definition MkzIsAlive (A : list Z) (dj : Z) : Z :=
  if rd A dj =? MKZ_INF then 0 else 1.

(** [(Q, A)[k1] <- (Q, A)[k2]] *)
Definition MkzAssign (Q A : list Z) (k1 k2 : Z) : list Z * list Z :=
  let dj := MkzGet Q k2 0 in
  let Q := MkzSet Q k1 0 dj in
  let Q := MkzSet Q k1 1 (MkzGet Q k2 1) in
  (Q, wr A dj k1).

(** The [while] loop of [MkzUpQueue].  [k] is halved by every turn, so
    [fuel >= k] turns are never used up ([MkzUpQueue_loop_fuel]). *)
Fixpoint MkzUpQueue_loop (fuel : nat) (Q A : list Z) (k count : Z)
  : list Z * list Z * Z :=
  match fuel with
  | O => (Q, A, k)
  | S f =>
      if (1 <? k) && (count <=? MkzGet Q (k / 2) 1) then
        let '(Q', A') := MkzAssign Q A k (k / 2) in
        MkzUpQueue_loop f Q' A' (k / 2) count
      else (Q, A, k)
  end.

Definition MkzUpQueue (Q A : list Z) (k : Z) : list Z * list Z :=
  let dj := MkzGet Q k 0 in
  let count := MkzGet Q k 1 in
  let '(Q, A, k) := MkzUpQueue_loop (Z.to_nat k) Q A k count in
  let Q := MkzSet Q k 0 dj in
  let Q := MkzSet Q k 1 count in
  (Q, wr A dj k).

(** The son of [k] that the loop of [MkzDownQueue] compares with:
    [j = 2*k], moved to [j+1] when there is a right son of smaller cost. *)
Definition smaller_son (Q : list Z) (k : Z) : Z :=
  let j := idx (2 * k) in
  if j <? rd Q 0 then
    if MkzGet Q (idx (j + 1)) 1 <? MkzGet Q j 1 then idx (j + 1) else j
  else j.

(** The [while] loop of [MkzDownQueue].  [k] at least doubles at every
    turn and stays below [Q[0]], so [fuel >= Q[0]] turns are never used
    up from a live slot ([MkzDownQueue_loop_fuel]). *)
Fixpoint MkzDownQueue_loop (fuel : nat) (Q A : list Z) (k count : Z)
  : list Z * list Z * Z :=
  match fuel with
  | O => (Q, A, k)
  | S f =>
      if idx (2 * k) <=? rd Q 0 then
        let j := smaller_son Q k in
        if count <=? MkzGet Q j 1 then (Q, A, k)
        else
          let '(Q', A') := MkzAssign Q A k j in
          MkzDownQueue_loop f Q' A' j count
      else (Q, A, k)
  end.

Definition MkzDownQueue (Q A : list Z) (k : Z) : list Z * list Z :=
  let dj := MkzGet Q k 0 in
  let count := MkzGet Q k 1 in
  let '(Q, A, k) := MkzDownQueue_loop (Z.to_nat (rd Q 0)) Q A k count in
  let Q := MkzSet Q k 0 dj in
  let Q := MkzSet Q k 1 count in
  (Q, wr A dj k).

Definition MkzMoveUpOrDown (Q A : list Z) (k : Z) : list Z * list Z :=
  if k =? 1 then MkzDownQueue Q A k
  else if MkzGet Q k 1 <? MkzGet Q (k / 2) 1 then MkzUpQueue Q A k
  else MkzDownQueue Q A k.

(** ** The cost policies *)

Definition Cavallar (mat : filter_matrix_t) (j : Z) : Z :=
  int_of (rd (wt mat) j).

(** The [for] loop of [pureMkz], entered with [k = 2]: one turn per row
    listed after the first.  The counter is an [unsigned int]; [R[j][0]]
    turns are never used up when [R[j][0] < 2^32 - 1]
    ([pureMkz_loop_fuel]), and beyond that the loop of the source does
    not end. *)
Fixpoint pureMkz_loop (mat : filter_matrix_t) (Rj : list Z) (fuel : nat)
  (k w0 : Z) : Z :=
  match fuel with
  | O => w0
  | S f =>
      if k <=? rd Rj 0 then
        let i := rd Rj k in
        let w0 := if matLengthRow mat i <? w0 then matLengthRow mat i
                  else w0 in
        pureMkz_loop mat Rj f (uint_of (k + 1)) w0
      else w0
  end.

Definition pureMkz (mat : filter_matrix_t) (j : Z) : Z :=
  let w := int_of (rd (wt mat) j) in
  if w <=? 1 then -4
  else if w =? 2 then -2
  else
    let Rj := rdl (R mat) j in
    let i := rd Rj 1 in
    let w0 := matLengthRow mat i in
    let w0 := pureMkz_loop mat Rj (Z.to_nat (rd Rj 0)) 2 w0 in
    int_of (idx (idx (idx (w0 - 2) * idx (w - 2)) - 2)).

Definition lightColAndMkz (mat : filter_matrix_t) (j : Z) : Z :=
  let wj := int_of (rd (wt mat) j) in
  if wj <=? 1 then -4
  else if wj <=? wmstmax mat then
    let ind := tl (rdl (R mat) j) in
    if wj =? 2 then
      int_of (idx (idx (idx (weightSum mat (rd ind 0) (rd ind 1) j)
                        - matLengthRow mat (rd ind 0))
                   - matLengthRow mat (rd ind 1)))
    else minCostUsingMST mat wj ind j
  else pureMkz mat j.

Definition MkzCount (mat : filter_matrix_t) (j : Z) : Z :=
  let cost :=
    match mkztype mat with
    | MKZTYPE_LIGHT => lightColAndMkz mat j
    | MKZTYPE_PURE => pureMkz mat j
    | MKZTYPE_CAVALLAR | MKZTYPE_other _ => Cavallar mat j
    end in
  if cost <? 0 then 0 else cost.

(** ** The public operations *)

(** What [MkzClear] prints when [verbose] is set (the cast to
    [unsigned long] keeps the value of an [index_t]); the two arrays are
    released afterwards. *)
Definition MkzClear (mat : filter_matrix_t) (verbose : Z) : option Z :=
  if verbose =? 0 then None
  else Some (MkzGet (MKZQ mat) (rd (MKZQ mat) 0) 1).

Definition MkzUpdate (mat : filter_matrix_t) (j : Z) : outcome filter_matrix_t :=
  let adr := rd (MKZA mat) j in
  if adr =? MKZ_INF then AssertionFailure
  else
    let mkz := idx (MkzCount mat j) in
    let Q := MkzSet (MKZQ mat) adr 1 mkz in
    let '(Q, A) := MkzMoveUpOrDown Q (MKZA mat) adr in
    Done (set_queue mat Q A).

(** The loop of [MkzUpdateN] from index [i] on, [todo] turns left. *)
Fixpoint MkzUpdateN_loop (mat : filter_matrix_t) (j : list Z) (i : Z)
  (todo : nat) : outcome filter_matrix_t :=
  match todo with
  | O => Done mat
  | S t =>
      match MkzUpdate mat (rd j i) with
      | Done mat' => MkzUpdateN_loop mat' j (i + 1) t
      | AssertionFailure => AssertionFailure
      end
  end.

Definition MkzUpdateN (mat : filter_matrix_t) (j : list Z) (n : Z)
  : outcome filter_matrix_t :=
  MkzUpdateN_loop mat j 0 (Z.to_nat n).

(** The second phase of the batch update of section 4.2 of the
    specification: the costs [mkz] computed beforehand are written and the
    heap repaired, one column after the other in the order of [j]. *)
Fixpoint MkzUpdateN_repair (Q A : list Z) (j mkz : list Z) (i : Z)
  (todo : nat) : list Z * list Z :=
  match todo with
  | O => (Q, A)
  | S t =>
      let adr := rd A (rd j i) in
      let Q := MkzSet Q adr 1 (rd mkz i) in
      let '(Q, A) := MkzMoveUpOrDown Q A adr in
      MkzUpdateN_repair Q A j mkz (i + 1) t
  end.

(** The batch update as section 4.2 of the specification words it: all
    the costs first, from the matrix alone, then the repairs one after the
    other in the order of [j].  (The source keeps a variant of this shape
    under [#if 0].) *)
Definition MkzUpdateN_two_phase (mat : filter_matrix_t) (j : list Z) (n : Z)
  : filter_matrix_t :=
  let mkz := map (fun i => idx (MkzCount mat (rd j i))) (Zseq 0 (Z.to_nat n)) in
  let '(Q, A) := MkzUpdateN_repair (MKZQ mat) (MKZA mat) j mkz 0 (Z.to_nat n) in
  set_queue mat Q A.

Section ColumnWeights.

(** The saturating increment and decrement of a weight, macros of a
    header that is not part of the sources at hand. *)
Variable incrS : Z -> Z.
Variable decrS : Z -> Z.

(** increment the weight of column j (in absolute value) *)
Definition MkzIncrCol (mat : filter_matrix_t) (j : Z) : filter_matrix_t * Z :=
  let w := incrS (rd (wt mat) j) in
  (set_wt mat (wr (wt mat) j w), int_of w).

Definition MkzDecreaseColWeight (mat : filter_matrix_t) (j : Z) : filter_matrix_t :=
  set_wt mat (wr (wt mat) j (decrS (rd (wt mat) j))).

(** ** A merge run, for the statements about sequences of operations *)

Definition apply_op (mat : filter_matrix_t) (op : queue_op)
  : outcome filter_matrix_t :=
  match op with
  | OpUpdate j => MkzUpdate mat j
  | OpUpdateN j n => MkzUpdateN mat j n
  | OpIncrCol j => Done (fst (MkzIncrCol mat j))
  | OpDecreaseColWeight j => Done (MkzDecreaseColWeight mat j)
  end.

(** The states a run goes through, the first one included; the run stops
    at a failed assertion. *)
Fixpoint run_states (mat : filter_matrix_t) (ops : list queue_op)
  : list filter_matrix_t :=
  mat ::
  match ops with
  | [] => []
  | op :: rest =>
      match apply_op mat op with
      | Done mat' => run_states mat' rest
      | AssertionFailure => []
      end
  end.

End ColumnWeights.

(** ** Views of the queue used by the statements *)

(** Number of live slots, column and cost of a slot. *)
Definition qn (Q : list Z) : Z := rd Q 0.
Definition col (Q : list Z) (k : Z) : Z := MkzGet Q k 0.
Definition cost (Q : list Z) (k : Z) : Z := MkzGet Q k 1.

(** Both components of slot [k] written at once. *)
Definition put (Q : list Z) (k d c : Z) : list Z :=
  MkzSet (MkzSet Q k 0 d) k 1 c.

(** The live slots [1..Q[0]] lie inside the array [Q] and their flat
    indices [2k], [2k+1] are representable in [index_t]. *)
Definition queue_wf (Q : list Z) : Prop :=
  0 <= qn Q /\ 2 * qn Q + 1 < Zlen Q /\ 2 * qn Q + 1 < 2 ^ index_bits.

(** Heap property, as property 1 of section 8 of the specification. *)
Definition is_heap (Q : list Z) : Prop :=
  forall k, 1 <= k ->
    (2 * k <= qn Q -> cost Q k <= cost Q (2 * k)) /\
    (2 * k + 1 <= qn Q -> cost Q k <= cost Q (2 * k + 1)).

(** The same, seen from the sons: no slot is cheaper than its father. *)
Definition heap_up (Q : list Z) : Prop :=
  forall i, 2 <= i <= qn Q -> cost Q (i / 2) <= cost Q i.

(** Bijection between live slots and alive columns: the column of a live
    slot is alive and [A] sends it back to the slot; an alive column is
    sent by [A] to a live slot that holds it. *)
Definition bijection (Q A : list Z) : Prop :=
  (forall k, 1 <= k <= qn Q ->
     MkzIsAlive A (col Q k) <> 0 /\ rd A (col Q k) = k) /\
  (forall c, 0 <= c < Zlen A -> MkzIsAlive A c <> 0 ->
     1 <= rd A c <= qn Q /\ col Q (rd A c) = c).

(** The columns held by the live slots, in slot order. *)
Definition columns (Q : list Z) : list Z :=
  map (col Q) (Zseq 1 (Z.to_nat (qn Q))).

(** Executable checks of the three predicates. *)
Definition queue_wfb (Q : list Z) : bool :=
  (0 <=? qn Q) && (2 * qn Q + 1 <? Zlen Q) && (2 * qn Q + 1 <? 2 ^ index_bits).

Definition is_heapb (Q : list Z) : bool :=
  forallb (fun k =>
             (negb (2 * k <=? qn Q) || (cost Q k <=? cost Q (2 * k))) &&
             (negb (2 * k + 1 <=? qn Q) || (cost Q k <=? cost Q (2 * k + 1))))
          (Zseq 1 (Z.to_nat (qn Q))).

Definition bijectionb (Q A : list Z) : bool :=
  forallb (fun k => negb (MkzIsAlive A (col Q k) =? 0) && (rd A (col Q k) =? k))
          (Zseq 1 (Z.to_nat (qn Q))) &&
  forallb (fun c => (MkzIsAlive A c =? 0) ||
                    ((1 <=? rd A c) && (rd A c <=? qn Q) && (col Q (rd A c) =? c)))
          (Zseq 0 (length A)).

(** Cost at the root (slot 1) of the queue. *)
Definition root_cost (mat : filter_matrix_t) : Z := cost (MKZQ mat) 1.

(** Largest cost seen at the root along a list of states. *)
Definition max_root_cost (states : list filter_matrix_t) : Z :=
  fold_right (fun mat m => Z.max (root_cost mat) m) 0 states.

(** ** Invariants of the sifting loops *)

(** State of a sifting loop that started from the queue [(Q0, A0)]:
    slot [k] is a hole waiting for column [dj], which no other slot
    holds; every other live slot and every other alive column are tied by
    [A] as in [bijection], and the other columns kept their costs. *)
Record hole_inv (Q0 A0 : list Z) (dj : Z) (Q A : list Z) (k : Z) : Prop := {
  hi_wf : queue_wf Q;
  hi_qn : qn Q = qn Q0;
  hi_lenQ : Zlen Q = Zlen Q0;
  hi_lenA : Zlen A = Zlen A0;
  hi_k : 1 <= k <= qn Q;
  hi_dj : 0 <= dj < Zlen A;
  hi_alive0 : rd A0 dj <> MKZ_INF;
  hi_noinf : forall i, 1 <= i <= qn Q -> i <> MKZ_INF;
  hi_slots : forall i, 1 <= i <= qn Q -> i <> k ->
             col Q i <> dj /\ rd A (col Q i) = i;
  hi_cols : forall c, 0 <= c < Zlen A -> c <> dj -> rd A c <> MKZ_INF ->
            1 <= rd A c <= qn Q /\ rd A c <> k /\ col Q (rd A c) = c /\
            cost Q (rd A c) = cost Q0 (rd A0 c);
  hi_dead : forall c, c <> dj -> (rd A c = MKZ_INF <-> rd A0 c = MKZ_INF);
  hi_out : forall i, i < 2 \/ 2 * qn Q0 + 1 < i -> rd Q i = rd Q0 i
}.

(** What a completed sift of column [dj] with cost [count] leaves,
    relative to the queue [(Q0, A0)] it started from. *)
Record sift_post (Q0 A0 : list Z) (dj count : Z) (Q A : list Z) : Prop := {
  sp_wf : queue_wf Q;
  sp_qn : qn Q = qn Q0;
  sp_lenQ : Zlen Q = Zlen Q0;
  sp_lenA : Zlen A = Zlen A0;
  sp_bij : bijection Q A;
  sp_slot : 1 <= rd A dj <= qn Q;
  sp_cost : cost Q (rd A dj) = count;
  sp_others : forall c, 0 <= c < Zlen A0 -> c <> dj -> rd A0 c <> MKZ_INF ->
              cost Q (rd A c) = cost Q0 (rd A0 c);
  sp_alive : forall c, rd A c = MKZ_INF <-> rd A0 c = MKZ_INF;
  sp_out : forall i, i < 2 \/ 2 * qn Q0 + 1 < i -> rd Q i = rd Q0 i
}.

(** Heap order around the hole [k] while [count] moves up: the edges away
    from [k] are in order, the sons of [k] are no cheaper than [count] nor
    than the father of [k]. *)
Definition up_inv (Q : list Z) (k count : Z) : Prop :=
  (forall i, 2 <= i <= qn Q -> i <> k -> i / 2 <> k ->
             cost Q (i / 2) <= cost Q i) /\
  (forall i, 2 <= i <= qn Q -> i / 2 = k ->
             count <= cost Q i /\ (1 < k -> cost Q (k / 2) <= cost Q i)).

(** Heap order around the hole [k] while [count] moves down: the edges
    away from [k] are in order, the father of [k] is no dearer than
    [count] nor than the sons of [k]. *)
Definition down_inv (Q : list Z) (k count : Z) : Prop :=
  (forall i, 2 <= i <= qn Q -> i <> k -> i / 2 <> k ->
             cost Q (i / 2) <= cost Q i) /\
  (1 < k -> cost Q (k / 2) <= count) /\
  (forall i, 2 <= i <= qn Q -> i / 2 = k -> 1 < k ->
             cost Q (k / 2) <= cost Q i).

(** ** Views of the matrix used by the statements *)

(** [w0] is the least length among the rows listed for column [j]. *)
Definition is_min_row_length (mat : filter_matrix_t) (j w0 : Z) : Prop :=
  let Rj := rdl (R mat) j in
  (exists k, 1 <= k <= rd Rj 0 /\ matLengthRow mat (rd Rj k) = w0) /\
  (forall k, 1 <= k <= rd Rj 0 -> w0 <= matLengthRow mat (rd Rj k)).

(** The same for the rows [1..hi] only. *)
Definition is_min_upto (mat : filter_matrix_t) (Rj : list Z) (hi w0 : Z) : Prop :=
  (exists k, 1 <= k <= hi /\ matLengthRow mat (rd Rj k) = w0) /\
  (forall k, 1 <= k <= hi -> w0 <= matLengthRow mat (rd Rj k)).

(** The direction [MkzMoveUpOrDown] takes once the cost [c] is written in
    slot [k]: up when [k] has a father that is dearer than [c]. *)
Definition moves_up (Q : list Z) (k c : Z) : bool :=
  negb (k =? 1) && (c <? cost Q (k / 2)).

(** The column indices an operation is given are columns of the matrix
    ([len] is the length of [MKZA]). *)
Definition op_ok (len : Z) (op : queue_op) : Prop :=
  match op with
  | OpUpdate j => 0 <= j < len
  | OpUpdateN j n => forall i, 0 <= i < n -> 0 <= rd j i < len
  | OpIncrCol _ | OpDecreaseColWeight _ => True
  end.

(** Executable check of [is_min_row_length]. *)
Definition is_min_row_lengthb (mat : filter_matrix_t) (j w0 : Z) : bool :=
  let Rj := rdl (R mat) j in
  let rows := Zseq 1 (Z.to_nat (rd Rj 0)) in
  existsb (fun k => matLengthRow mat (rd Rj k) =? w0) rows &&
  forallb (fun k => w0 <=? matLengthRow mat (rd Rj k)) rows.

(** ** The debugging aid [MkzIsHeap] *)

(** The [for] loop of [MkzIsHeap] from [k] on: the left son of [k] is
    compared for every [k <= Q[0]/2], the right son for [k < Q[0]/2]
    only.  The messages sent to [stderr] are left out.  [k] grows by one
    at every turn, so [Q[0]/2 + 1] turns are never used up
    ([MkzIsHeap_loop_fuel]). *)
Fixpoint MkzIsHeap_loop (fuel : nat) (Q : list Z) (k : Z) : Z :=
  match fuel with
  | O => 1
  | S f =>
      if k <=? rd Q 0 / 2 then
        if MkzGet Q (idx (2 * k)) 1 <? MkzGet Q k 1 then 0
        else if (k <? rd Q 0 / 2)
                && (MkzGet Q (idx (idx (2 * k) + 1)) 1 <? MkzGet Q k 1)
        then 0
        else MkzIsHeap_loop f Q (idx (k + 1))
      else 1
  end.

Definition MkzIsHeap (Q : list Z) : Z :=
  MkzIsHeap_loop (S (Z.to_nat (rd Q 0 / 2))) Q 1.

(** ** Paths of the heap *)

(** Slot [a] is slot [d] or one of its ancestors: [d] halved some number
    of times. *)
Definition ancestor (a d : Z) : Prop :=
  exists m, 0 <= m /\ Z.shiftr d m = a.

(** The son of [k] that [MkzDownQueue] looks at when [k] has a son: the
    right one when it exists and is strictly cheaper, else the left one. *)
Definition cheaper_son (Q : list Z) (k : Z) : Z :=
  if (2 * k + 1 <=? qn Q) && (cost Q (2 * k + 1) <? cost Q (2 * k))
  then 2 * k + 1 else 2 * k.

(** What every public operation keeps of the queue it is given: the
    size of [A], the set of alive columns, the number of live slots,
    well-formedness, the bijection and, when it held, the heap order. *)
Definition queue_kept (mat mat' : filter_matrix_t) : Prop :=
  Zlen (MKZA mat') = Zlen (MKZA mat) /\
  (forall c, MkzIsAlive (MKZA mat') c = MkzIsAlive (MKZA mat) c) /\
  qn (MKZQ mat') = qn (MKZQ mat) /\
  queue_wf (MKZQ mat') /\
  bijection (MKZQ mat') (MKZA mat') /\
  (heap_up (MKZQ mat) -> heap_up (MKZQ mat')).

(** ** The debugging aid [MkzPrintQueue] *)

(** What [MkzPrintQueue] sends to [stderr], call by call: the label
    ["L%d:"] of a level, an entry [" [%d, %d]"] with the two values
    handed to [fprintf] (the cost first), or a line break. *)
Inductive mkz_output : Type :=
| OutLevel (level : Z)
| OutEntry (count dj : Z)
| OutNewline.

(** The [for] loop of [MkzPrintQueue] from slot [i] on.  [i] grows by one
    at every turn, so [Q[0] + 1] turns are never used up. *)
Fixpoint MkzPrintQueue_loop (fuel : nat) (Q : list Z) (i imax level : Z)
  : list mkz_output :=
  match fuel with
  | O => []
  | S f =>
      if i <=? rd Q 0 then
        OutEntry (MkzGet Q i 1) (MkzGet Q i 0) ::
        (if i =? imax then
           OutNewline :: OutLevel (level + 1) ::
           MkzPrintQueue_loop f Q (idx (i + 1))
                              (idx (idx (Z.shiftl imax 1) + 1)) (level + 1)
         else MkzPrintQueue_loop f Q (idx (i + 1)) imax level)
      else []
  end.

Definition MkzPrintQueue (Q : list Z) : list mkz_output :=
  OutLevel 0 ::
  MkzPrintQueue_loop (S (Z.to_nat (rd Q 0))) Q 1 1 0 ++ [OutNewline].

(** What is printed for slot [i]: its entry, followed by a line break
    and the label of the next level when [i] is the last slot of its
    level, that is when [i + 1] is a power of two. *)
Definition slot_output (Q : list Z) (i : Z) : list mkz_output :=
  OutEntry (cost Q i) (col Q i) ::
  (if i + 1 =? 2 ^ Z.log2 (i + 1)
   then [OutNewline; OutLevel (Z.log2 (i + 1))] else []).

(** ** Arrays: reading after writing *)

Lemma upd_nth_length (a : list Z) (n : nat) (v : Z) :
  length (upd_nth a n v) = length a.
Proof.
  revert n; induction a as [|h t IH]; intros [|n]; simpl; auto.
Qed.

Lemma nth_upd_nth_eq (a : list Z) (n : nat) (v d : Z) :
  (n < length a)%nat -> nth n (upd_nth a n v) d = v.
Proof.
  revert n; induction a as [|h t IH]; intros [|n] Hn; simpl in *;
    try lia; auto.
  apply IH; lia.
Qed.

Lemma nth_upd_nth_neq (a : list Z) (n m : nat) (v d : Z) :
  n <> m -> nth m (upd_nth a n v) d = nth m a d.
Proof.
  revert n m; induction a as [|h t IH]; intros [|n] [|m] Hn; simpl;
    try congruence; auto.
Qed.

Lemma upd_nth_same (a : list Z) (n : nat) :
  upd_nth a n (nth n a 0) = a.
Proof.
  revert n; induction a as [|h t IH]; intros [|n]; simpl; auto.
  now rewrite IH.
Qed.

Lemma Zlen_wr (a : list Z) (i v : Z) : Zlen (wr a i v) = Zlen a.
Proof.
  unfold wr, Zlen. destruct (i <? 0); auto. now rewrite upd_nth_length.
Qed.

Lemma rd_wr_eq (a : list Z) (i v : Z) :
  0 <= i < Zlen a -> rd (wr a i v) i = v.
Proof.
  unfold rd, wr, Zlen. intros Hi.
  destruct (Z.ltb_spec i 0); try lia.
  apply nth_upd_nth_eq. lia.
Qed.

Lemma rd_wr_neq (a : list Z) (i i' v : Z) :
  i <> i' -> rd (wr a i v) i' = rd a i'.
Proof.
  unfold rd, wr. intros Hi.
  destruct (Z.ltb_spec i' 0); auto.
  destruct (Z.ltb_spec i 0); auto.
  apply nth_upd_nth_neq. lia.
Qed.

Lemma wr_rd_same (a : list Z) (i : Z) : wr a i (rd a i) = a.
Proof.
  unfold rd, wr. destruct (i <? 0); auto. apply upd_nth_same.
Qed.

Lemma rd_nonzero_inside (a : list Z) (i : Z) :
  rd a i <> 0 -> 0 <= i < Zlen a.
Proof.
  unfold rd, Zlen. destruct (Z.ltb_spec i 0); try congruence.
  intros Hn. split; auto.
  destruct (Nat.lt_ge_cases (Z.to_nat i) (length a)) as [Hl|Hl]; try lia.
  now rewrite nth_overflow in Hn.
Qed.

Lemma in_Zseq (len : nat) (lo x : Z) :
  In x (Zseq lo len) <-> lo <= x < lo + Z.of_nat len.
Proof.
  revert lo; induction len as [|m IH]; intros lo; simpl.
  - lia.
  - rewrite IH. lia.
Qed.

Lemma NoDup_Zseq (len : nat) (lo : Z) : NoDup (Zseq lo len).
Proof.
  revert lo; induction len as [|m IH]; intros lo; simpl; constructor; auto.
  rewrite in_Zseq. lia.
Qed.

(** ** Machine integers: conversions that change nothing *)

Lemma pow_index_bits : exists q, 0 < q /\ 2 ^ index_bits = q * 2 ^ 32.
Proof.
  exists (2 ^ (index_bits - 32)). split.
  - apply Z.pow_pos_nonneg; lia.
  - rewrite <- Z.pow_add_r by lia. f_equal. lia.
Qed.

Lemma pow_index_bits_large : 2 ^ 32 <= 2 ^ index_bits.
Proof. apply Z.pow_le_mono_r; lia. Qed.

Lemma idx_small (x : Z) : 0 <= x < 2 ^ index_bits -> idx x = x.
Proof. intros H. unfold idx. now apply Z.mod_small. Qed.

Lemma idx_range (x : Z) : 0 <= idx x < 2 ^ index_bits.
Proof.
  unfold idx. apply Z.mod_pos_bound. pose proof pow_index_bits_large. lia.
Qed.

Lemma int_of_small (x : Z) : int_range x -> int_of x = x.
Proof.
  unfold int_range, int_of. intros H.
  rewrite Z.mod_small; lia.
Qed.

Lemma int_of_range (x : Z) : int_range (int_of x).
Proof.
  unfold int_range, int_of.
  pose proof (Z.mod_pos_bound (x + 2 ^ 31) (2 ^ 32) ltac:(lia)). lia.
Qed.

Lemma int_of_eqm (a b : Z) :
  a mod 2 ^ 32 = b mod 2 ^ 32 -> int_of a = int_of b.
Proof.
  intros H. unfold int_of. f_equal.
  rewrite (Z.add_mod a), (Z.add_mod b) by lia. now rewrite H.
Qed.

Lemma idx_mod32 (x : Z) : idx x mod 2 ^ 32 = x mod 2 ^ 32.
Proof.
  unfold idx. destruct pow_index_bits as (q & Hq & ->).
  rewrite Z.mul_comm. rewrite Z.rem_mul_r by lia.
  rewrite Z.add_mod by lia. rewrite Z.mul_comm, Z.mod_mul by lia.
  rewrite Z.add_0_r. now rewrite !Z.mod_mod by lia.
Qed.

Lemma int_of_idx (x : Z) : int_of (idx x) = int_of x.
Proof. apply int_of_eqm, idx_mod32. Qed.

(** The arithmetic of the last line of [pureMkz], carried out in
    [index_t] and returned as an [int], is the exact value reduced to an
    [int], whatever the width of [index_t]. *)
Lemma pureMkz_arith (w0 w : Z) :
  int_of (idx (idx (idx (w0 - 2) * idx (w - 2)) - 2))
  = int_of ((w0 - 2) * (w - 2) - 2).
Proof.
  apply int_of_eqm. rewrite idx_mod32.
  rewrite Zminus_mod, idx_mod32.
  rewrite Zmult_mod, !idx_mod32, <- Zmult_mod.
  now rewrite <- Zminus_mod.
Qed.

Lemma lightCol_arith (s l0 l1 : Z) :
  int_of (idx (idx (idx s - l0) - l1)) = int_of (s - l0 - l1).
Proof.
  apply int_of_eqm. rewrite idx_mod32.
  rewrite Zminus_mod, idx_mod32.
  rewrite (Zminus_mod (idx s)), idx_mod32, <- (Zminus_mod s).
  now rewrite <- Zminus_mod.
Qed.


(** ** Slots: reading after writing *)

Ltac dlia := Z.to_euclidean_division_equations; lia.

Lemma half_spec (i : Z) :
  2 <= i -> 1 <= i / 2 < i /\ (i = 2 * (i / 2) \/ i = 2 * (i / 2) + 1).
Proof. intros. dlia. Qed.

Lemma alive_iff (A : list Z) (c : Z) :
  MkzIsAlive A c <> 0 <-> rd A c <> MKZ_INF.
Proof.
  unfold MkzIsAlive. destruct (Z.eqb_spec (rd A c) MKZ_INF); split; intros; lia.
Qed.

(** Inside the range of [index_t] the flat index of a slot is [2k + r]. *)
Lemma flat_index (k r : Z) :
  0 <= k -> 2 * k + 1 < 2 ^ index_bits -> 0 <= r <= 1 ->
  idx (idx (Z.shiftl k 1) + r) = 2 * k + r.
Proof.
  intros Hk Hb Hr. rewrite Z.shiftl_mul_pow2 by lia.
  change (2 ^ 1) with 2. rewrite (idx_small (k * 2)) by lia.
  rewrite idx_small; lia.
Qed.

Lemma MkzGet_flat (Q : list Z) (k r : Z) :
  0 <= k -> 2 * k + 1 < 2 ^ index_bits -> 0 <= r <= 1 ->
  MkzGet Q k r = rd Q (2 * k + r).
Proof. intros. unfold MkzGet. now rewrite flat_index. Qed.

Lemma MkzSet_flat (Q : list Z) (k r v : Z) :
  0 <= k -> 2 * k + 1 < 2 ^ index_bits -> 0 <= r <= 1 ->
  MkzSet Q k r v = wr Q (2 * k + r) v.
Proof. intros. unfold MkzSet. now rewrite flat_index. Qed.

Lemma MkzSet_same (Q : list Z) (k r : Z) : MkzSet Q k r (MkzGet Q k r) = Q.
Proof. unfold MkzSet, MkzGet. apply wr_rd_same. Qed.

Lemma put_same (Q : list Z) (k : Z) : put Q k (col Q k) (cost Q k) = Q.
Proof. unfold put, col, cost. now rewrite MkzSet_same, MkzSet_same. Qed.

Lemma MkzSet_cost_put (Q : list Z) (k c : Z) :
  MkzSet Q k 1 c = put Q k (col Q k) c.
Proof. unfold put, col. now rewrite MkzSet_same. Qed.

Lemma put_flat (Q : list Z) (k d c : Z) :
  0 <= k -> 2 * k + 1 < 2 ^ index_bits ->
  put Q k d c = wr (wr Q (2 * k) d) (2 * k + 1) c.
Proof.
  intros. unfold put. rewrite !MkzSet_flat by lia. now rewrite Z.add_0_r.
Qed.

Lemma Zlen_put (Q : list Z) (k d c : Z) : Zlen (put Q k d c) = Zlen Q.
Proof. unfold put, MkzSet. now rewrite !Zlen_wr. Qed.

Section LiveSlot.

Variable Q : list Z.
Hypothesis Qwf : queue_wf Q.
Variable k : Z.
Hypothesis klive : 1 <= k <= qn Q.

Lemma live_flat : 0 <= k /\ 2 * k + 1 < 2 ^ index_bits /\ 2 * k + 1 < Zlen Q.
Proof. destruct Qwf as (? & ? & ?). lia. Qed.

Lemma rd_put (d c i : Z) :
  rd (put Q k d c) i =
  if i =? 2 * k then d else if i =? 2 * k + 1 then c else rd Q i.
Proof.
  destruct live_flat as (H0 & H1 & H2).
  rewrite put_flat by lia.
  destruct (Z.eqb_spec i (2 * k)) as [->|Hd].
  - rewrite rd_wr_neq by lia. apply rd_wr_eq. lia.
  - destruct (Z.eqb_spec i (2 * k + 1)) as [->|Hc].
    + apply rd_wr_eq. rewrite Zlen_wr. lia.
    + now rewrite !rd_wr_neq by lia.
Qed.

Lemma qn_put (d c : Z) : qn (put Q k d c) = qn Q.
Proof.
  unfold qn. rewrite rd_put.
  destruct (Z.eqb_spec 0 (2 * k)); [lia|].
  destruct (Z.eqb_spec 0 (2 * k + 1)); [lia|reflexivity].
Qed.

Lemma queue_wf_put (d c : Z) : queue_wf (put Q k d c).
Proof. unfold queue_wf. rewrite qn_put, Zlen_put. exact Qwf. Qed.

Lemma col_put (d c i : Z) :
  0 <= i -> 2 * i + 1 < 2 ^ index_bits ->
  col (put Q k d c) i = if i =? k then d else col Q i.
Proof.
  intros Hi Hb. unfold col. rewrite !MkzGet_flat by lia. rewrite rd_put.
  destruct (Z.eqb_spec i k) as [->|Hn].
  - now rewrite Z.add_0_r, Z.eqb_refl.
  - destruct (Z.eqb_spec (2 * i + 0) (2 * k)); [lia|].
    destruct (Z.eqb_spec (2 * i + 0) (2 * k + 1)); [lia|reflexivity].
Qed.

Lemma cost_put (d c i : Z) :
  0 <= i -> 2 * i + 1 < 2 ^ index_bits ->
  cost (put Q k d c) i = if i =? k then c else cost Q i.
Proof.
  intros Hi Hb. unfold cost. rewrite !MkzGet_flat by lia. rewrite rd_put.
  destruct (Z.eqb_spec i k) as [->|Hn].
  - destruct (Z.eqb_spec (2 * k + 1) (2 * k)); [lia|].
    now rewrite Z.eqb_refl.
  - destruct (Z.eqb_spec (2 * i + 1) (2 * k)); [lia|].
    destruct (Z.eqb_spec (2 * i + 1) (2 * k + 1)); [lia|reflexivity].
Qed.

Lemma rd_put_outside (d c i : Z) :
  i < 2 \/ 2 * qn Q + 1 < i -> rd (put Q k d c) i = rd Q i.
Proof.
  intros Hi. rewrite rd_put.
  destruct (Z.eqb_spec i (2 * k)); [lia|].
  destruct (Z.eqb_spec i (2 * k + 1)); [lia|reflexivity].
Qed.

(** [MkzAssign] copies a live slot over slot [k] and redirects [A]. *)
Lemma MkzAssign_put (A : list Z) (j : Z) :
  1 <= j <= qn Q ->
  MkzAssign Q A k j = (put Q k (col Q j) (cost Q j), wr A (col Q j) k).
Proof.
  intros Hj. destruct live_flat as (H0 & H1 & H2).
  destruct Qwf as (Hn & HlenQ & Hbits).
  unfold MkzAssign, put, col, cost. f_equal. f_equal.
  rewrite !MkzSet_flat, !MkzGet_flat by lia.
  apply rd_wr_neq. lia.
Qed.

End LiveSlot.

Lemma live_index (Q : list Z) (i : Z) :
  queue_wf Q -> 0 <= i <= qn Q -> 0 <= i /\ 2 * i + 1 < 2 ^ index_bits.
Proof. intros (? & ? & ?) ?. lia. Qed.

(** The two forms of the heap property agree. *)
Lemma is_heap_heap_up (Q : list Z) : is_heap Q <-> heap_up Q.
Proof.
  unfold is_heap, heap_up. split.
  - intros H i Hi. destruct (half_spec i ltac:(lia)) as (Hh & Hc).
    destruct (H (i / 2) ltac:(lia)) as (Hl & Hr).
    destruct Hc as [Hc|Hc].
    + rewrite Hc at 2. apply Hl. lia.
    + rewrite Hc at 2. apply Hr. lia.
  - intros H k Hk. split; intros Hn.
    + specialize (H (2 * k) ltac:(lia)).
      replace (2 * k / 2) with k in H by dlia. exact H.
    + specialize (H (2 * k + 1) ltac:(lia)).
      replace ((2 * k + 1) / 2) with k in H by dlia. exact H.
Qed.

(** ** The hole: one column in transit *)

Lemma hole_inv_init (Q0 A0 : list Z) (k d c : Z) :
  queue_wf Q0 -> bijection Q0 A0 -> 1 <= k <= qn Q0 ->
  hole_inv Q0 A0 (col Q0 k) (put Q0 k d c) A0 k.
Proof.
  intros Hwf (Hs & Hc) Hk.
  assert (Hslot : forall i, 1 <= i <= qn Q0 ->
                    rd A0 (col Q0 i) <> MKZ_INF /\ rd A0 (col Q0 i) = i).
  { intros i Hi. destruct (Hs i Hi) as (Ha & He).
    apply alive_iff in Ha. auto. }
  assert (Hput : forall i, 1 <= i <= qn Q0 -> i <> k ->
            col (put Q0 k d c) i = col Q0 i /\
            cost (put Q0 k d c) i = cost Q0 i).
  { intros i Hi Hne. destruct (live_index Q0 i Hwf ltac:(lia)).
    rewrite col_put, cost_put by auto.
    destruct (Z.eqb_spec i k); [lia|]. auto. }
  constructor.
  - now apply queue_wf_put.
  - now apply qn_put.
  - apply Zlen_put.
  - reflexivity.
  - rewrite qn_put; auto.
  - apply rd_nonzero_inside. destruct (Hslot k Hk) as (_ & ->). lia.
  - apply (Hslot k Hk).
  - rewrite qn_put by auto. intros i Hi.
    destruct (Hslot i Hi) as (Ha & He). congruence.
  - rewrite qn_put by auto. intros i Hi Hne.
    destruct (Hput i Hi Hne) as (-> & _).
    destruct (Hslot i Hi) as (_ & He). split; auto.
    intros Heq. rewrite Heq in He.
    destruct (Hslot k Hk) as (_ & He'). congruence.
  - rewrite qn_put by auto. intros x Hx Hne Ha.
    destruct (Hc x Hx) as (Hr & Hcol). { now apply alive_iff. }
    assert (rd A0 x <> k) by (intros E; rewrite E in Hcol; congruence).
    destruct (Hput (rd A0 x) Hr H) as (-> & ->). auto.
  - tauto.
  - intros i Hi. now apply rd_put_outside.
Qed.

Lemma hole_inv_step (Q0 A0 : list Z) (dj : Z) (Q A : list Z) (k j : Z) :
  hole_inv Q0 A0 dj Q A k -> 1 <= j <= qn Q -> j <> k ->
  hole_inv Q0 A0 dj (put Q k (col Q j) (cost Q j)) (wr A (col Q j) k) j.
Proof.
  intros H Hj Hjk. destruct H.
  destruct (hi_slots0 j Hj Hjk) as (Hcj & Haj).
  remember (col Q j) as cj eqn:Ecj.
  assert (Hcjr : 0 <= cj < Zlen A) by (apply rd_nonzero_inside; lia).
  assert (Hput : forall i, 1 <= i <= qn Q ->
            col (put Q k cj (cost Q j)) i = (if i =? k then cj else col Q i) /\
            cost (put Q k cj (cost Q j)) i
            = (if i =? k then cost Q j else cost Q i)).
  { intros i Hi. destruct (live_index Q i hi_wf0 ltac:(lia)).
    rewrite col_put, cost_put by auto. auto. }
  constructor; rewrite ?qn_put, ?Zlen_put, ?Zlen_wr by auto; auto.
  - now apply queue_wf_put.
  - intros i Hi Hne. destruct (Hput i Hi) as (-> & _).
    destruct (Z.eqb_spec i k) as [->|Hik].
    + split; auto. now apply rd_wr_eq.
    + destruct (hi_slots0 i Hi Hik) as (Hci & Hai). split; auto.
      rewrite rd_wr_neq; auto. intros E. rewrite <- E in Hai. lia.
  - intros x Hx Hne Ha.
    destruct (Z.eq_dec x cj) as [->|Hxc].
    + rewrite rd_wr_eq by auto.
      destruct (Hput k hi_k0) as (-> & ->). rewrite Z.eqb_refl.
      repeat split; auto; try lia.
      destruct (hi_cols0 cj Hcjr Hcj) as (_ & _ & _ & Hcost).
      { rewrite Haj. now apply hi_noinf0. }
      now rewrite Haj in Hcost.
    + rewrite rd_wr_neq in * by auto.
      destruct (hi_cols0 x Hx Hne Ha) as (Hr & Hk & Hcol & Hcost).
      assert (rd A x <> j) by (intros E; rewrite E in Hcol; congruence).
      destruct (Hput (rd A x) Hr) as (-> & ->).
      destruct (Z.eqb_spec (rd A x) k); [lia|]. auto.
  - intros x Hne. destruct (Z.eq_dec x cj) as [->|Hxc].
    + rewrite rd_wr_eq by auto. rewrite <- (hi_dead0 cj Hcj), Haj.
      pose proof (hi_noinf0 k hi_k0). pose proof (hi_noinf0 j Hj). tauto.
    + rewrite rd_wr_neq by auto. now apply hi_dead0.
  - intros i Hi. rewrite rd_put_outside; auto. lia.
Qed.

Lemma hole_inv_final (Q0 A0 : list Z) (dj count : Z) (Q A : list Z) (k : Z) :
  hole_inv Q0 A0 dj Q A k ->
  sift_post Q0 A0 dj count (put Q k dj count) (wr A dj k) /\
  rd (wr A dj k) dj = k.
Proof.
  intros H. destruct H.
  assert (Hput : forall i, 1 <= i <= qn Q ->
            col (put Q k dj count) i = (if i =? k then dj else col Q i) /\
            cost (put Q k dj count) i = (if i =? k then count else cost Q i)).
  { intros i Hi. destruct (live_index Q i hi_wf0 ltac:(lia)).
    rewrite col_put, cost_put by auto. auto. }
  assert (Hk : rd (wr A dj k) dj = k) by now apply rd_wr_eq.
  split; auto.
  constructor; rewrite ?qn_put, ?Zlen_put, ?Zlen_wr by auto; auto.
  - now apply queue_wf_put.
  - split.
    + rewrite qn_put by auto. intros i Hi. rewrite alive_iff.
      destruct (Hput i Hi) as (-> & _).
      destruct (Z.eqb_spec i k) as [->|Hik].
      * rewrite Hk. split; auto.
      * destruct (hi_slots0 i Hi Hik) as (Hci & Hai).
        rewrite rd_wr_neq by auto. rewrite Hai. split; auto.
    + rewrite qn_put, Zlen_wr by auto. intros x Hx Ha.
      apply alive_iff in Ha.
      destruct (Z.eq_dec x dj) as [->|Hne].
      * rewrite Hk. destruct (Hput k hi_k0) as (-> & _).
        rewrite Z.eqb_refl. auto.
      * rewrite rd_wr_neq in * by auto.
        destruct (hi_cols0 x Hx Hne Ha) as (Hr & Hnk & Hcol & _).
        destruct (Hput (rd A x) Hr) as (-> & _).
        destruct (Z.eqb_spec (rd A x) k); [lia|]. auto.
  - rewrite Hk. auto.
  - rewrite Hk. destruct (Hput k hi_k0) as (_ & ->). now rewrite Z.eqb_refl.
  - intros x Hx Hne Ha. rewrite rd_wr_neq by auto.
    assert (Ha' : rd A x <> MKZ_INF) by (rewrite hi_dead0; auto).
    destruct (hi_cols0 x ltac:(lia) Hne Ha') as (Hr & Hnk & _ & Hcost).
    destruct (Hput (rd A x) Hr) as (_ & ->).
    destruct (Z.eqb_spec (rd A x) k); [lia|]. auto.
  - intros x. destruct (Z.eq_dec x dj) as [->|Hne].
    + rewrite Hk. pose proof (hi_noinf0 k hi_k0). tauto.
    + rewrite rd_wr_neq by auto. now apply hi_dead0.
  - intros i Hi. rewrite rd_put_outside; auto. lia.
Qed.

Lemma cost_put_live (Q : list Z) (k d c i : Z) :
  queue_wf Q -> 1 <= k <= qn Q -> 0 <= i <= qn Q ->
  cost (put Q k d c) i = if i =? k then c else cost Q i.
Proof.
  intros Hwf Hk Hi. destruct (live_index Q i Hwf Hi).
  now apply cost_put.
Qed.

Lemma idx_double_live (Q : list Z) (k : Z) :
  queue_wf Q -> 0 <= k <= qn Q -> idx (2 * k) = 2 * k.
Proof. intros (? & ? & ?) ?. apply idx_small. lia. Qed.

(** The son chosen by [MkzDownQueue] is a son of [k] and the cheaper one,
    the left one on a tie. *)
Lemma smaller_son_spec (Q : list Z) (k : Z) :
  queue_wf Q -> 1 <= k -> 2 * k <= qn Q ->
  (smaller_son Q k = 2 * k \/
   smaller_son Q k = 2 * k + 1 /\ 2 * k + 1 <= qn Q /\
   cost Q (2 * k + 1) < cost Q (2 * k)) /\
  cost Q (smaller_son Q k) <= cost Q (2 * k) /\
  (2 * k + 1 <= qn Q -> cost Q (smaller_son Q k) <= cost Q (2 * k + 1)).
Proof.
  intros Hwf Hk Hn. unfold smaller_son.
  rewrite (idx_double_live Q k) by (auto; lia).
  fold (qn Q). destruct Hwf as (H0 & Hl & Hb).
  destruct (Z.ltb_spec (2 * k) (qn Q)) as [Hlt|Hge].
  - rewrite (idx_small (2 * k + 1)) by lia. fold (cost Q (2 * k + 1)).
    fold (cost Q (2 * k)).
    destruct (Z.ltb_spec (cost Q (2 * k + 1)) (cost Q (2 * k))); lia.
  - lia.
Qed.

(** ** The loops keep the hole invariant *)

Lemma MkzUpQueue_loop_hole (Q0 A0 : list Z) (dj count : Z) (fuel : nat) :
  forall Q A k, hole_inv Q0 A0 dj Q A k ->
  exists Q' A' k',
    MkzUpQueue_loop fuel Q A k count = (Q', A', k') /\
    hole_inv Q0 A0 dj Q' A' k' /\ 1 <= k' <= k.
Proof.
  induction fuel as [|f IH]; intros Q A k H; cbn [MkzUpQueue_loop].
  - exists Q, A, k. pose proof (hi_k _ _ _ _ _ _ H). split; [reflexivity | split; [auto | lia]].
  - pose proof (hi_k _ _ _ _ _ _ H) as Hk. pose proof (hi_wf _ _ _ _ _ _ H) as Hwf.
    destruct ((1 <? k) && (count <=? MkzGet Q (k / 2) 1)) eqn:Hc.
    + apply andb_true_iff in Hc. destruct Hc as (Hc & _).
      apply Z.ltb_lt in Hc. destruct (half_spec k ltac:(lia)) as (Hh & _).
      rewrite MkzAssign_put by (auto; lia).
      destruct (IH _ _ _ (hole_inv_step _ _ _ _ _ k (k / 2) H ltac:(lia) ltac:(lia)))
        as (Q' & A' & k' & E & Hi & Hk').
      exists Q', A', k'. split; [exact E | split; [auto | lia]].
    + exists Q, A, k. split; [reflexivity | split; [auto | lia]].
Qed.

Lemma MkzDownQueue_loop_hole (Q0 A0 : list Z) (dj count : Z) (fuel : nat) :
  forall Q A k, hole_inv Q0 A0 dj Q A k ->
  exists Q' A' k',
    MkzDownQueue_loop fuel Q A k count = (Q', A', k') /\
    hole_inv Q0 A0 dj Q' A' k' /\ k <= k' <= qn Q0.
Proof.
  induction fuel as [|f IH]; intros Q A k H; cbn [MkzDownQueue_loop];
    pose proof (hi_k _ _ _ _ _ _ H) as Hk;
    pose proof (hi_wf _ _ _ _ _ _ H) as Hwf;
    pose proof (hi_qn _ _ _ _ _ _ H) as Hn.
  - exists Q, A, k. split; [reflexivity | split; [auto | lia]].
  - rewrite (idx_double_live Q k) by (auto; lia). fold (qn Q).
    destruct (Z.leb_spec (2 * k) (qn Q)) as [Hs|Hs].
    + destruct (smaller_son_spec Q k Hwf ltac:(lia) Hs) as (Hj & _).
      destruct (count <=? MkzGet Q (smaller_son Q k) 1).
      * exists Q, A, k. split; [reflexivity | split; [auto | lia]].
      * rewrite MkzAssign_put by (auto; lia).
        destruct (IH _ _ _ (hole_inv_step _ _ _ _ _ k (smaller_son Q k) H
                              ltac:(lia) ltac:(lia)))
          as (Q' & A' & k' & E & Hi & Hk').
        exists Q', A', k'. split; [exact E | split; [auto | lia]].
    + exists Q, A, k. split; [reflexivity | split; [auto | lia]].
Qed.

(** Either sift of slot [k], entered after a cost [c] was written into
    that slot of a queue [(Q0, A0)] that satisfies the bijection, leaves a
    queue that satisfies it, with the same columns, at the same costs but
    for the one that moved. *)
Lemma MkzUpQueue_post (Q0 A0 : list Z) (k c : Z) :
  queue_wf Q0 -> bijection Q0 A0 -> 1 <= k <= qn Q0 ->
  let r := MkzUpQueue (put Q0 k (col Q0 k) c) A0 k in
  sift_post Q0 A0 (col Q0 k) c (fst r) (snd r) /\
  1 <= rd (snd r) (col Q0 k) <= k.
Proof.
  intros Hwf Hb Hk. unfold MkzUpQueue.
  fold (col (put Q0 k (col Q0 k) c) k) (cost (put Q0 k (col Q0 k) c) k).
  destruct (live_index Q0 k Hwf ltac:(lia)) as (Hk0 & Hk1).
  rewrite col_put, cost_put, Z.eqb_refl by (auto; lia).
  pose proof (hole_inv_init Q0 A0 k (col Q0 k) c Hwf Hb Hk) as H.
  destruct (MkzUpQueue_loop_hole Q0 A0 (col Q0 k) c (Z.to_nat k) _ _ _ H)
    as (Q' & A' & k' & -> & Hi & Hk').
  cbn [fst snd]. fold (put Q' k' (col Q0 k) c).
  destruct (hole_inv_final _ _ _ c _ _ _ Hi) as (Hp & ->).
  split; auto.
Qed.

Lemma MkzDownQueue_post (Q0 A0 : list Z) (k c : Z) :
  queue_wf Q0 -> bijection Q0 A0 -> 1 <= k <= qn Q0 ->
  let r := MkzDownQueue (put Q0 k (col Q0 k) c) A0 k in
  sift_post Q0 A0 (col Q0 k) c (fst r) (snd r) /\
  k <= rd (snd r) (col Q0 k) <= qn Q0.
Proof.
  intros Hwf Hb Hk. unfold MkzDownQueue.
  fold (col (put Q0 k (col Q0 k) c) k) (cost (put Q0 k (col Q0 k) c) k).
  destruct (live_index Q0 k Hwf ltac:(lia)) as (Hk0 & Hk1).
  rewrite col_put, cost_put, Z.eqb_refl by (auto; lia).
  pose proof (hole_inv_init Q0 A0 k (col Q0 k) c Hwf Hb Hk) as H.
  destruct (MkzDownQueue_loop_hole Q0 A0 (col Q0 k) c
              (Z.to_nat (rd (put Q0 k (col Q0 k) c) 0)) _ _ _ H)
    as (Q' & A' & k' & -> & Hi & Hk').
  cbn [fst snd]. fold (put Q' k' (col Q0 k) c).
  destruct (hole_inv_final _ _ _ c _ _ _ Hi) as (Hp & ->).
  split; auto.
Qed.

(** ** Heap order around the hole *)

Ltac cput :=
  repeat (rewrite cost_put_live by (auto; dlia));
  repeat match goal with
         | |- context [if ?a =? ?b then _ else _] =>
             destruct (Z.eqb_spec a b)
         end.

Lemma up_inv_init (Q0 : list Z) (k d c : Z) :
  queue_wf Q0 -> heap_up Q0 -> 1 < k <= qn Q0 -> c < cost Q0 (k / 2) ->
  up_inv (put Q0 k d c) k c.
Proof.
  intros Hwf Hh Hk Hc. split; rewrite qn_put by (auto; lia).
  - intros i Hi Hik Hhk. cput; try lia. now apply Hh.
  - intros i Hi Hhk.
    pose proof (Hh i Hi) as H1. rewrite Hhk in H1.
    pose proof (Hh k ltac:(lia)) as H2.
    destruct (half_spec i ltac:(lia)) as (Hp & _).
    destruct (half_spec k ltac:(lia)) as (Hq & _).
    cput; try lia.
Qed.

Lemma up_inv_step (Q : list Z) (k d count : Z) :
  queue_wf Q -> 1 < k <= qn Q -> up_inv Q k count ->
  count <= cost Q (k / 2) ->
  up_inv (put Q k d (cost Q (k / 2))) (k / 2) count.
Proof.
  intros Hwf Hk (Hb & Hs) Hc.
  destruct (half_spec k ltac:(lia)) as (Hp & _).
  split; rewrite qn_put by (auto; lia).
  - intros i Hi Hip Hhp.
    destruct (Z.eq_dec i k) as [->|Hik]; [congruence|].
    destruct (Z.eq_dec (i / 2) k) as [Hh|Hh].
    + rewrite Hh. cput; try lia.
      destruct (Hs i Hi Hh) as (_ & H). apply H. lia.
    + cput; try lia. now apply Hb.
  - intros i Hi Hhp.
    assert (Hpp : 1 < k / 2 -> cost Q (k / 2 / 2) <= cost Q (k / 2)).
    { intros H1. apply Hb; dlia. }
    destruct (half_spec i ltac:(lia)) as (Hpi & _).
    assert (Hgg : 1 < k / 2 -> 1 <= k / 2 / 2 < k / 2) by (intros; dlia).
    destruct (Z.eq_dec i k) as [->|Hik].
    + split.
      * cput; try lia.
      * intros H1. specialize (Hgg H1). cput; try lia; auto.
    + assert (Hci : cost Q (k / 2) <= cost Q i).
      { rewrite <- Hhp. apply Hb; auto; lia. }
      split.
      * cput; try lia.
      * intros H1. specialize (Hgg H1). specialize (Hpp H1).
        cput; try lia.
Qed.

Lemma up_inv_final (Q : list Z) (k d count : Z) :
  queue_wf Q -> 1 <= k <= qn Q -> up_inv Q k count ->
  (k = 1 \/ cost Q (k / 2) < count) ->
  heap_up (put Q k d count).
Proof.
  intros Hwf Hk (Hb & Hs) Hx i. rewrite qn_put by auto. intros Hi.
  destruct (half_spec i ltac:(lia)) as (Hp & _).
  destruct (Z.eq_dec i k) as [->|Hik].
  - cput; try lia.
  - destruct (Z.eq_dec (i / 2) k) as [Hh|Hh].
    + destruct (Hs i Hi Hh) as (H1 & _). rewrite Hh. cput; try lia.
    + cput; try lia. now apply Hb.
Qed.

Lemma down_inv_init (Q0 : list Z) (k d c : Z) :
  queue_wf Q0 -> heap_up Q0 -> 1 <= k <= qn Q0 ->
  (1 < k -> cost Q0 (k / 2) <= c) ->
  down_inv (put Q0 k d c) k c.
Proof.
  intros Hwf Hh Hk Hc. split; [|split]; rewrite ?qn_put by (auto; lia).
  - intros i Hi Hik Hhk. cput; try lia. now apply Hh.
  - intros H1. destruct (half_spec k ltac:(lia)) as (Hq & _).
    cput; try lia; auto.
  - intros i Hi Hhk H1.
    pose proof (Hh i Hi) as H2. rewrite Hhk in H2.
    pose proof (Hh k ltac:(lia)) as H3.
    destruct (half_spec i ltac:(lia)) as (Hp & _).
    destruct (half_spec k ltac:(lia)) as (Hq & _).
    cput; try lia.
Qed.

Lemma down_inv_step (Q : list Z) (k d count : Z) :
  queue_wf Q -> 1 <= k -> 2 * k <= qn Q -> down_inv Q k count ->
  cost Q (smaller_son Q k) < count ->
  down_inv (put Q k d (cost Q (smaller_son Q k))) (smaller_son Q k) count.
Proof.
  intros Hwf Hk Hn (Hb & Hf & Hg) Hc.
  destruct (smaller_son_spec Q k Hwf Hk Hn) as (Hj & Hl & Hr).
  remember (smaller_son Q k) as j eqn:Ej.
  assert (Hjk : j / 2 = k) by dlia.
  split; [|split]; rewrite ?qn_put by (auto; lia).
  - intros i Hi Hij Hhj.
    destruct (half_spec i ltac:(lia)) as (Hp & Hcase).
    destruct (Z.eq_dec i k) as [->|Hik].
    + assert (Hkk : 1 <= k / 2 < k) by dlia.
      cput; try lia. apply Hg; auto; lia.
    + destruct (Z.eq_dec (i / 2) k) as [Hhk|Hhk].
      * rewrite Hhk. cput; try lia.
        assert (i = 2 * k \/ i = 2 * k + 1) as [->| ->] by lia; lia.
      * cput; try lia. now apply Hb.
  - intros _. rewrite Hjk. cput; lia.
  - intros i Hi Hhj _. rewrite Hjk.
    destruct (half_spec i ltac:(lia)) as (Hp & _).
    cput; try lia. rewrite <- Hhj. apply Hb; lia.
Qed.

Lemma down_inv_final (Q : list Z) (k d count : Z) :
  queue_wf Q -> 1 <= k <= qn Q -> down_inv Q k count ->
  (qn Q < 2 * k \/ count <= cost Q (smaller_son Q k)) ->
  heap_up (put Q k d count).
Proof.
  intros Hwf Hk (Hb & Hf & Hg) Hx i. rewrite qn_put by auto. intros Hi.
  destruct (half_spec i ltac:(lia)) as (Hp & Hcase).
  destruct (Z.eq_dec i k) as [->|Hik].
  - cput; try lia; apply Hf; lia.
  - destruct (Z.eq_dec (i / 2) k) as [Hh|Hh].
    + rewrite Hh. destruct Hx as [Hx|Hx]; [lia|].
      destruct (smaller_son_spec Q k Hwf ltac:(lia) ltac:(lia)) as (_ & Hl & Hr).
      cput; try lia.
      assert (i = 2 * k \/ i = 2 * k + 1) as [->| ->] by lia; lia.
    + cput; try lia. now apply Hb.
Qed.

(** ** The loops restore the heap order and leave by their own test *)

Lemma MkzUpQueue_loop_heap (Q0 A0 : list Z) (dj count : Z) (fuel : nat) :
  forall Q A k,
    hole_inv Q0 A0 dj Q A k -> up_inv Q k count -> k <= Z.of_nat fuel ->
    exists Q' A' k',
      MkzUpQueue_loop fuel Q A k count = (Q', A', k') /\
      hole_inv Q0 A0 dj Q' A' k' /\ up_inv Q' k' count /\
      (k' = 1 \/ cost Q' (k' / 2) < count) /\
      (1 < k -> count <= cost Q (k / 2) -> k' < k).
Proof.
  induction fuel as [|f IH]; intros Q A k H Hu Hf; cbn [MkzUpQueue_loop];
    pose proof (hi_k _ _ _ _ _ _ H) as Hk;
    pose proof (hi_wf _ _ _ _ _ _ H) as Hwf.
  - lia.
  - fold (cost Q (k / 2)).
    destruct (Z.ltb_spec 1 k) as [H1|H1]; cbn [andb].
    + destruct (Z.leb_spec count (cost Q (k / 2))) as [Hc|Hc].
      * destruct (half_spec k ltac:(lia)) as (Hh & _).
        rewrite MkzAssign_put by (auto; lia).
        destruct (IH _ _ (k / 2)
                    (hole_inv_step _ _ _ _ _ k (k / 2) H ltac:(lia) ltac:(lia))
                    (up_inv_step Q k (col Q (k / 2)) count Hwf ltac:(lia) Hu Hc)
                    ltac:(lia))
          as (Q' & A' & k' & E & Hi & Hu' & Hx & _).
        exists Q', A', k'. repeat (split; [assumption|]).
        intros _ _. pose proof (hi_k _ _ _ _ _ _ Hi).
        destruct (MkzUpQueue_loop_hole Q0 A0 dj count f _ _ _
                    (hole_inv_step _ _ _ _ _ k (k / 2) H ltac:(lia) ltac:(lia)))
          as (Q2 & A2 & k2 & E2 & _ & Hk2).
        rewrite E in E2. injection E2 as <- <- <-. lia.
      * exists Q, A, k. repeat (split; [auto|]). lia.
    + exists Q, A, k. repeat (split; [auto; lia|]). lia.
Qed.

Lemma MkzDownQueue_loop_heap (Q0 A0 : list Z) (dj count : Z) (fuel : nat) :
  forall Q A k,
    hole_inv Q0 A0 dj Q A k -> down_inv Q k count ->
    qn Q - k < Z.of_nat fuel ->
    exists Q' A' k',
      MkzDownQueue_loop fuel Q A k count = (Q', A', k') /\
      hole_inv Q0 A0 dj Q' A' k' /\ down_inv Q' k' count /\
      (qn Q' < 2 * k' \/ count <= cost Q' (smaller_son Q' k')).
Proof.
  induction fuel as [|f IH]; intros Q A k H Hd Hf; cbn [MkzDownQueue_loop];
    pose proof (hi_k _ _ _ _ _ _ H) as Hk;
    pose proof (hi_wf _ _ _ _ _ _ H) as Hwf.
  - lia.
  - rewrite (idx_double_live Q k) by (auto; lia). fold (qn Q).
    fold (cost Q (smaller_son Q k)).
    destruct (Z.leb_spec (2 * k) (qn Q)) as [Hs|Hs].
    + destruct (smaller_son_spec Q k Hwf ltac:(lia) Hs) as (Hj & _).
      destruct (Z.leb_spec count (cost Q (smaller_son Q k))) as [Hc|Hc].
      * exists Q, A, k. repeat (split; [auto|]). auto.
      * rewrite MkzAssign_put by (auto; lia).
        apply (IH _ _ (smaller_son Q k)
                 (hole_inv_step _ _ _ _ _ k (smaller_son Q k) H
                    ltac:(lia) ltac:(lia))
                 (down_inv_step Q k (col Q (smaller_son Q k)) count Hwf
                    ltac:(lia) Hs Hd Hc)).
        rewrite qn_put by (auto; lia). lia.
    + exists Q, A, k. repeat (split; [auto|]). auto.
Qed.

Lemma MkzUpQueue_heap (Q0 A0 : list Z) (k c : Z) :
  queue_wf Q0 -> bijection Q0 A0 -> heap_up Q0 ->
  1 < k <= qn Q0 -> c < cost Q0 (k / 2) ->
  let r := MkzUpQueue (put Q0 k (col Q0 k) c) A0 k in
  heap_up (fst r) /\ rd (snd r) (col Q0 k) < k.
Proof.
  intros Hwf Hb Hh Hk Hc. unfold MkzUpQueue.
  fold (col (put Q0 k (col Q0 k) c) k) (cost (put Q0 k (col Q0 k) c) k).
  destruct (live_index Q0 k Hwf ltac:(lia)) as (Hk0 & Hk1).
  rewrite col_put, cost_put, Z.eqb_refl by (auto; lia).
  pose proof (hole_inv_init Q0 A0 k (col Q0 k) c Hwf Hb ltac:(lia)) as H.
  destruct (MkzUpQueue_loop_heap Q0 A0 (col Q0 k) c (Z.to_nat k) _ _ _ H
              (up_inv_init Q0 k (col Q0 k) c Hwf Hh Hk Hc) ltac:(lia))
    as (Q' & A' & k' & -> & Hi & Hu & Hx & Hlt).
  cbn [fst snd]. fold (put Q' k' (col Q0 k) c).
  destruct (hole_inv_final _ _ _ c _ _ _ Hi) as (_ & ->).
  split.
  - apply up_inv_final; auto.
    + apply (hi_wf _ _ _ _ _ _ Hi).
    + apply (hi_k _ _ _ _ _ _ Hi).
  - apply Hlt; [lia|].
    destruct (half_spec k ltac:(lia)) as (Hp & _).
    rewrite cost_put_live by (auto; lia).
    destruct (Z.eqb_spec (k / 2) k); lia.
Qed.

Lemma MkzDownQueue_heap (Q0 A0 : list Z) (k c : Z) :
  queue_wf Q0 -> bijection Q0 A0 -> heap_up Q0 ->
  1 <= k <= qn Q0 -> (1 < k -> cost Q0 (k / 2) <= c) ->
  heap_up (fst (MkzDownQueue (put Q0 k (col Q0 k) c) A0 k)).
Proof.
  intros Hwf Hb Hh Hk Hc. unfold MkzDownQueue.
  fold (col (put Q0 k (col Q0 k) c) k) (cost (put Q0 k (col Q0 k) c) k).
  destruct (live_index Q0 k Hwf ltac:(lia)) as (Hk0 & Hk1).
  rewrite col_put, cost_put, Z.eqb_refl by (auto; lia).
  pose proof (hole_inv_init Q0 A0 k (col Q0 k) c Hwf Hb ltac:(lia)) as H.
  destruct (MkzDownQueue_loop_heap Q0 A0 (col Q0 k) c
              (Z.to_nat (rd (put Q0 k (col Q0 k) c) 0)) _ _ _ H
              (down_inv_init Q0 k (col Q0 k) c Hwf Hh Hk Hc))
    as (Q' & A' & k' & -> & Hi & Hd & Hx).
  { fold (qn (put Q0 k (col Q0 k) c)). rewrite qn_put by auto.
    destruct Hwf as (? & _). lia. }
  cbn [fst snd]. fold (put Q' k' (col Q0 k) c).
  apply down_inv_final; auto.
  - apply (hi_wf _ _ _ _ _ _ Hi).
  - apply (hi_k _ _ _ _ _ _ Hi).
Qed.

(** ** The fuel of the loops is never used up *)

(** More turns than [k] change nothing: the loop of [MkzUpQueue] has
    left by its own test before. *)
Lemma MkzUpQueue_loop_fuel (count : Z) (fuel : nat) :
  forall Q A k (extra : nat),
    k <= Z.of_nat fuel ->
    MkzUpQueue_loop (fuel + extra) Q A k count
    = MkzUpQueue_loop fuel Q A k count.
Proof.
  induction fuel as [|f IH]; intros Q A k extra Hk.
  - destruct extra as [|e]; [reflexivity|]. cbn [Nat.add MkzUpQueue_loop].
    destruct (Z.ltb_spec 1 k); [lia|reflexivity].
  - cbn [Nat.add MkzUpQueue_loop].
    destruct (Z.ltb_spec 1 k) as [H1|H1]; cbn [andb]; [|reflexivity].
    destruct (count <=? MkzGet Q (k / 2) 1); [|reflexivity].
    destruct (MkzAssign Q A k (k / 2)) as [Q' A'].
    apply IH. destruct (half_spec k ltac:(lia)). lia.
Qed.

(** More turns than [Q[0]] change nothing in the loop of [MkzDownQueue]
    entered at a live slot. *)
Lemma MkzDownQueue_loop_fuel (Q0 A0 : list Z) (dj count : Z) (fuel : nat) :
  forall Q A k (extra : nat),
    hole_inv Q0 A0 dj Q A k -> qn Q - k < Z.of_nat fuel ->
    MkzDownQueue_loop (fuel + extra) Q A k count
    = MkzDownQueue_loop fuel Q A k count.
Proof.
  induction fuel as [|f IH]; intros Q A k extra H Hf;
    pose proof (hi_k _ _ _ _ _ _ H) as Hk;
    pose proof (hi_wf _ _ _ _ _ _ H) as Hwf; [lia|].
  cbn [Nat.add MkzDownQueue_loop].
  rewrite (idx_double_live Q k) by (auto; lia). fold (qn Q).
  destruct (Z.leb_spec (2 * k) (qn Q)) as [Hs|Hs]; [|reflexivity].
  destruct (smaller_son_spec Q k Hwf ltac:(lia) Hs) as (Hj & _).
  destruct (count <=? MkzGet Q (smaller_son Q k) 1); [reflexivity|].
  rewrite MkzAssign_put by (auto; lia).
  apply IH.
  - apply hole_inv_step; auto; lia.
  - rewrite qn_put by (auto; lia). lia.
Qed.

(** More turns than [R[j][0]] change nothing in the loop of [pureMkz], as
    long as the counter [k], an [unsigned int], can reach [R[j][0] + 1]. *)
Lemma pureMkz_loop_fuel (mat : filter_matrix_t) (Rj : list Z) (fuel : nat) :
  forall k w0 (extra : nat),
    0 <= k -> rd Rj 0 < 2 ^ 32 - 1 -> rd Rj 0 - k < Z.of_nat fuel ->
    pureMkz_loop mat Rj (fuel + extra) k w0 = pureMkz_loop mat Rj fuel k w0.
Proof.
  induction fuel as [|f IH]; intros k w0 extra Hk Hn Hf.
  - destruct extra as [|e]; [reflexivity|]. cbn [Nat.add pureMkz_loop].
    destruct (Z.leb_spec k (rd Rj 0)); [lia|reflexivity].
  - cbn [Nat.add pureMkz_loop].
    destruct (Z.leb_spec k (rd Rj 0)) as [Hle|Hgt]; [|reflexivity].
    assert (Hw : uint_of (k + 1) = k + 1).
    { unfold uint_of. apply Z.mod_small. lia. }
    rewrite Hw. apply IH; lia.
Qed.

(** ** The cost policies *)

Lemma pureMkz_loop_min (mat : filter_matrix_t) (Rj : list Z) (fuel : nat) :
  forall k w0,
    2 <= k -> rd Rj 0 < 2 ^ 32 - 1 -> k <= rd Rj 0 + 1 ->
    rd Rj 0 - k < Z.of_nat fuel ->
    is_min_upto mat Rj (k - 1) w0 ->
    is_min_upto mat Rj (rd Rj 0) (pureMkz_loop mat Rj fuel k w0).
Proof.
  induction fuel as [|f IH]; intros k w0 Hk Hn Hkn Hf Hm; cbn [pureMkz_loop].
  - replace (rd Rj 0) with (k - 1) by lia. exact Hm.
  - destruct (Z.leb_spec k (rd Rj 0)) as [Hle|Hgt].
    + assert (Hw : uint_of (k + 1) = k + 1).
      { unfold uint_of. apply Z.mod_small. lia. }
      rewrite Hw. apply IH; try lia.
      replace (k + 1 - 1) with k by lia.
      destruct Hm as ((k0 & Hk0 & E0) & Hall).
      destruct (Z.ltb_spec (matLengthRow mat (rd Rj k)) w0) as [Hlt|Hge].
      * split.
        -- exists k. split; [lia|reflexivity].
        -- intros i Hi. destruct (Z.eq_dec i k) as [->|Hne]; [lia|].
           specialize (Hall i ltac:(lia)). lia.
      * split.
        -- exists k0. split; [lia|exact E0].
        -- intros i Hi. destruct (Z.eq_dec i k) as [->|Hne]; [lia|].
           apply Hall. lia.
    + replace (rd Rj 0) with (k - 1) by lia. exact Hm.
Qed.

(** [pureMkz] on a column of weight at least 3 whose row list has as many
    entries as its weight. *)
Lemma pureMkz_heavy (mat : filter_matrix_t) (j : Z) :
  let w := int_of (rd (wt mat) j) in
  3 <= w -> rd (rdl (R mat) j) 0 = w ->
  exists w0,
    is_min_row_length mat j w0 /\
    pureMkz mat j = int_of ((w0 - 2) * (w - 2) - 2).
Proof.
  intros w Hw HR. unfold pureMkz. fold w.
  destruct (Z.leb_spec w 1); [lia|].
  destruct (Z.eqb_spec w 2); [lia|].
  rewrite pureMkz_arith.
  pose proof (int_of_range (rd (wt mat) j)) as Hr. fold w in Hr.
  unfold int_range in Hr.
  eexists. split; [|reflexivity].
  unfold is_min_row_length. cbv zeta.
  apply pureMkz_loop_min; try lia.
  split.
  - exists 1. split; [lia|reflexivity].
  - intros k Hk. assert (k = 1) as -> by lia. lia.
Qed.

Lemma pureMkz_int (mat : filter_matrix_t) (j : Z) : int_range (pureMkz mat j).
Proof.
  unfold pureMkz.
  destruct (_ <=? 1); [unfold int_range; lia|].
  destruct (_ =? 2); [unfold int_range; lia|].
  apply int_of_range.
Qed.

Lemma lightColAndMkz_int (mat : filter_matrix_t) (j : Z) :
  int_range (lightColAndMkz mat j).
Proof.
  unfold lightColAndMkz.
  destruct (_ <=? 1); [unfold int_range; lia|].
  destruct (_ <=? wmstmax mat); [|apply pureMkz_int].
  destruct (_ =? 2); [apply int_of_range|apply minCostUsingMST_int].
Qed.

(** The cost that enters the queue is never negative and fits an [int],
    hence an [index_t]. *)
Lemma MkzCount_range (mat : filter_matrix_t) (j : Z) :
  0 <= MkzCount mat j < 2 ^ 31.
Proof.
  unfold MkzCount.
  assert (H : forall c, int_range c -> 0 <= (if c <? 0 then 0 else c) < 2 ^ 31).
  { intros c Hc. unfold int_range in Hc. destruct (Z.ltb_spec c 0); lia. }
  apply H. destruct (mkztype mat).
  - apply int_of_range.
  - apply pureMkz_int.
  - apply lightColAndMkz_int.
  - apply int_of_range.
Qed.

Lemma idx_MkzCount (mat : filter_matrix_t) (j : Z) :
  idx (MkzCount mat j) = MkzCount mat j.
Proof.
  apply idx_small. pose proof (MkzCount_range mat j).
  pose proof pow_index_bits_large. lia.
Qed.

(** The cost of a column depends on the matrix, not on the queue. *)
Lemma pureMkz_loop_queue (mat : filter_matrix_t) (Q A Rj : list Z) (fuel : nat) :
  forall k w0,
    pureMkz_loop (set_queue mat Q A) Rj fuel k w0 = pureMkz_loop mat Rj fuel k w0.
Proof.
  induction fuel as [|f IH]; intros k w0; cbn [pureMkz_loop]; auto.
  destruct (k <=? rd Rj 0); auto.
Qed.

Lemma pureMkz_queue (mat : filter_matrix_t) (Q A : list Z) (j : Z) :
  pureMkz (set_queue mat Q A) j = pureMkz mat j.
Proof.
  unfold pureMkz. cbn [set_queue wt R].
  rewrite pureMkz_loop_queue. reflexivity.
Qed.

Lemma MkzCount_queue (mat : filter_matrix_t) (Q A : list Z) (j : Z) :
  MkzCount (set_queue mat Q A) j = MkzCount mat j.
Proof.
  unfold MkzCount, lightColAndMkz, Cavallar.
  rewrite pureMkz_queue, weightSum_queue, minCostUsingMST_queue.
  reflexivity.
Qed.

(** ** [MkzMoveUpOrDown] and [MkzUpdate] *)

Lemma MkzMoveUpOrDown_direction (Q0 A0 : list Z) (k c : Z) :
  queue_wf Q0 -> 1 <= k <= qn Q0 ->
  MkzMoveUpOrDown (MkzSet Q0 k 1 c) A0 k =
  if moves_up Q0 k c then MkzUpQueue (MkzSet Q0 k 1 c) A0 k
  else MkzDownQueue (MkzSet Q0 k 1 c) A0 k.
Proof.
  intros Hwf Hk. unfold MkzMoveUpOrDown, moves_up.
  destruct (Z.eqb_spec k 1) as [->|H1]; cbn [negb andb]; auto.
  fold (cost (MkzSet Q0 k 1 c) k) (cost (MkzSet Q0 k 1 c) (k / 2)).
  rewrite MkzSet_cost_put.
  destruct (half_spec k ltac:(lia)) as (Hp & _).
  rewrite !cost_put_live by (auto; lia).
  rewrite Z.eqb_refl. destruct (Z.eqb_spec (k / 2) k); [lia|].
  reflexivity.
Qed.

Lemma MkzMoveUpOrDown_post (Q0 A0 : list Z) (k c : Z) :
  queue_wf Q0 -> bijection Q0 A0 -> 1 <= k <= qn Q0 ->
  let r := MkzMoveUpOrDown (MkzSet Q0 k 1 c) A0 k in
  sift_post Q0 A0 (col Q0 k) c (fst r) (snd r) /\
  (if moves_up Q0 k c then 1 <= rd (snd r) (col Q0 k) <= k
   else k <= rd (snd r) (col Q0 k) <= qn Q0).
Proof.
  intros Hwf Hb Hk. cbv zeta.
  rewrite MkzMoveUpOrDown_direction by auto. rewrite MkzSet_cost_put.
  destruct (moves_up Q0 k c).
  - now apply MkzUpQueue_post.
  - now apply MkzDownQueue_post.
Qed.

Lemma MkzMoveUpOrDown_heap (Q0 A0 : list Z) (k c : Z) :
  queue_wf Q0 -> bijection Q0 A0 -> heap_up Q0 -> 1 <= k <= qn Q0 ->
  let r := MkzMoveUpOrDown (MkzSet Q0 k 1 c) A0 k in
  heap_up (fst r) /\
  (moves_up Q0 k c = true -> rd (snd r) (col Q0 k) < k).
Proof.
  intros Hwf Hb Hh Hk. cbv zeta.
  rewrite MkzMoveUpOrDown_direction by auto. rewrite MkzSet_cost_put.
  unfold moves_up.
  destruct (Z.eqb_spec k 1) as [H1|H1]; cbn [negb andb].
  - split; [|discriminate]. apply MkzDownQueue_heap; auto. lia.
  - destruct (Z.ltb_spec c (cost Q0 (k / 2))) as [Hc|Hc].
    + destruct (MkzUpQueue_heap Q0 A0 k c Hwf Hb Hh ltac:(lia) Hc). auto.
    + split; [|discriminate]. apply MkzDownQueue_heap; auto.
Qed.

Lemma alive_slot (Q A : list Z) (j : Z) :
  bijection Q A -> 0 <= j < Zlen A -> rd A j <> MKZ_INF ->
  1 <= rd A j <= qn Q /\ col Q (rd A j) = j.
Proof.
  intros (_ & Hc) Hj Ha. apply Hc; auto. now apply alive_iff.
Qed.

(** What one call of [MkzUpdate] on an alive column does. *)
Lemma MkzUpdate_core (mat : filter_matrix_t) (j : Z) :
  let Q := MKZQ mat in
  let A := MKZA mat in
  let adr := rd A j in
  let mkz := MkzCount mat j in
  queue_wf Q -> bijection Q A -> 0 <= j < Zlen A -> rd A j <> MKZ_INF ->
  exists Q' A',
    MkzUpdate mat j = Done (set_queue mat Q' A') /\
    (Q', A') = MkzMoveUpOrDown (MkzSet Q adr 1 mkz) A adr /\
    sift_post Q A j mkz Q' A' /\
    (if moves_up Q adr mkz then 1 <= rd A' j <= adr
     else adr <= rd A' j <= qn Q) /\
    (heap_up Q ->
     heap_up Q' /\ (moves_up Q adr mkz = true -> rd A' j < adr)).
Proof.
  intros Q A adr mkz Hwf Hb Hj Ha.
  destruct (alive_slot Q A j Hb Hj Ha) as (Hadr & Hcol). fold adr in Hadr, Hcol.
  unfold MkzUpdate. fold A Q adr.
  destruct (Z.eqb_spec adr MKZ_INF) as [E|_]; [exfalso; exact (Ha E)|].
  rewrite idx_MkzCount. fold mkz.
  pose proof (MkzMoveUpOrDown_post Q A adr mkz Hwf Hb Hadr) as Hp.
  assert (Hh := fun H => MkzMoveUpOrDown_heap Q A adr mkz Hwf Hb H Hadr).
  cbv zeta in Hp, Hh. rewrite Hcol in Hp, Hh.
  destruct (MkzMoveUpOrDown (MkzSet Q adr 1 mkz) A adr) as [Q' A'].
  cbn [fst snd] in Hp, Hh. destruct Hp as (Hp & Hdir).
  exists Q', A'. split; [reflexivity|]. split; [reflexivity|].
  split; [exact Hp|]. split; [exact Hdir|exact Hh].
Qed.

(** On a heap nothing is out of place: sifting a slot changes nothing. *)
Lemma MkzDownQueue_fixed (Q A : list Z) (k : Z) :
  queue_wf Q -> bijection Q A -> heap_up Q -> 1 <= k <= qn Q ->
  MkzDownQueue Q A k = (Q, A).
Proof.
  intros Hwf Hb Hh Hk. unfold MkzDownQueue.
  assert (E : MkzDownQueue_loop (Z.to_nat (rd Q 0)) Q A k (MkzGet Q k 1)
              = (Q, A, k)).
  { fold (qn Q). destruct (Z.to_nat (qn Q)) as [|f] eqn:Ef; [reflexivity|].
    cbn [MkzDownQueue_loop].
    rewrite (idx_double_live Q k) by (auto; lia). fold (qn Q).
    destruct (Z.leb_spec (2 * k) (qn Q)) as [Hs|Hs]; auto.
    destruct (smaller_son_spec Q k Hwf ltac:(lia) Hs) as (Hson & _).
    fold (cost Q k) (cost Q (smaller_son Q k)).
    assert (Hle : cost Q k <= cost Q (smaller_son Q k)).
    { pose proof (Hh (smaller_son Q k) ltac:(lia)) as H.
      replace (smaller_son Q k / 2) with k in H by dlia. exact H. }
    destruct (Z.leb_spec (cost Q k) (cost Q (smaller_son Q k))); [auto|lia]. }
  rewrite E. rewrite !MkzSet_same.
  destruct Hb as (Hs & _). destruct (Hs k Hk) as (_ & Hak).
  fold (col Q k). rewrite <- Hak at 2. now rewrite wr_rd_same.
Qed.

Lemma MkzMoveUpOrDown_fixed (Q A : list Z) (k : Z) :
  queue_wf Q -> bijection Q A -> heap_up Q -> 1 <= k <= qn Q ->
  MkzMoveUpOrDown Q A k = (Q, A).
Proof.
  intros Hwf Hb Hh Hk. unfold MkzMoveUpOrDown.
  destruct (Z.eqb_spec k 1); [now apply MkzDownQueue_fixed|].
  fold (cost Q k) (cost Q (k / 2)).
  pose proof (Hh k ltac:(lia)).
  destruct (Z.ltb_spec (cost Q k) (cost Q (k / 2))); [lia|].
  now apply MkzDownQueue_fixed.
Qed.

(** ** The columns of the queue *)

Lemma NoDup_map_on {T U : Type} (f : T -> U) (l : list T) :
  (forall x y, In x l -> In y l -> f x = f y -> x = y) ->
  NoDup l -> NoDup (map f l).
Proof.
  intros Hinj Hnd. induction Hnd as [|a l Ha Hnd IH]; simpl; constructor.
  - rewrite in_map_iff. intros (y & Hy & Hin).
    assert (y = a) by (apply Hinj; simpl; auto). subst. contradiction.
  - apply IH. intros x y Hx Hy. apply Hinj; simpl; auto.
Qed.

Lemma in_columns (Q : list Z) (c : Z) :
  0 <= qn Q ->
  In c (columns Q) <-> exists k, 1 <= k <= qn Q /\ col Q k = c.
Proof.
  intros Hn. unfold columns. rewrite in_map_iff. split.
  - intros (k & E & Hin). apply in_Zseq in Hin. exists k. split; auto. lia.
  - intros (k & Hk & E). exists k. split; auto. apply in_Zseq. lia.
Qed.

Lemma NoDup_columns (Q A : list Z) : bijection Q A -> NoDup (columns Q).
Proof.
  intros (Hs & _). unfold columns. apply NoDup_map_on; [|apply NoDup_Zseq].
  intros x y Hx Hy E. apply in_Zseq in Hx, Hy.
  destruct (Z.le_gt_cases 0 (qn Q)) as [Hn|Hn].
  - destruct (Hs x ltac:(lia)) as (_ & Ex). destruct (Hs y ltac:(lia)) as (_ & Ey).
    congruence.
  - lia.
Qed.

Lemma columns_alive (Q A : list Z) (c : Z) :
  queue_wf Q -> bijection Q A ->
  In c (columns Q) <-> 0 <= c < Zlen A /\ rd A c <> MKZ_INF.
Proof.
  intros (Hn & _) (Hs & Hc). rewrite in_columns by auto. split.
  - intros (k & Hk & <-). destruct (Hs k Hk) as (Ha & E).
    apply alive_iff in Ha. split; auto. apply rd_nonzero_inside. lia.
  - intros (Hr & Ha). apply alive_iff in Ha.
    destruct (Hc c Hr Ha) as (Hk & E). eauto.
Qed.

(** Two queues with the same alive columns hold the same columns. *)
Lemma columns_Permutation (Q A Q' A' : list Z) :
  queue_wf Q -> bijection Q A -> queue_wf Q' -> bijection Q' A' ->
  Zlen A' = Zlen A -> (forall c, rd A' c = MKZ_INF <-> rd A c = MKZ_INF) ->
  Permutation (columns Q') (columns Q).
Proof.
  intros Hwf Hb Hwf' Hb' Hlen Hal.
  apply NoDup_Permutation; eauto using NoDup_columns.
  intros c. rewrite (columns_alive Q A), (columns_alive Q' A') by auto.
  rewrite Hlen, Hal. tauto.
Qed.

(** ** The batch update *)

Lemma MkzUpdate_preserves (mat mat' : filter_matrix_t) (j : Z) :
  queue_wf (MKZQ mat) -> bijection (MKZQ mat) (MKZA mat) ->
  0 <= j < Zlen (MKZA mat) -> MkzUpdate mat j = Done mat' ->
  queue_wf (MKZQ mat') /\ bijection (MKZQ mat') (MKZA mat') /\
  Zlen (MKZA mat') = Zlen (MKZA mat).
Proof.
  intros Hwf Hb Hj E.
  destruct (Z.eq_dec (rd (MKZA mat) j) MKZ_INF) as [Hd|Ha].
  - unfold MkzUpdate in E. rewrite Hd, Z.eqb_refl in E. discriminate.
  - destruct (MkzUpdate_core mat j Hwf Hb Hj Ha) as (Q' & A' & E' & _ & Hp & _).
    rewrite E' in E. injection E as <-. cbn [set_queue MKZQ MKZA].
    destruct Hp. auto.
Qed.

Lemma MkzUpdateN_loop_preserves (js : list Z) (todo : nat) :
  forall (mat mat' : filter_matrix_t) (i : Z),
    queue_wf (MKZQ mat) -> bijection (MKZQ mat) (MKZA mat) ->
    (forall i', i <= i' < i + Z.of_nat todo ->
                0 <= rd js i' < Zlen (MKZA mat)) ->
    MkzUpdateN_loop mat js i todo = Done mat' ->
    queue_wf (MKZQ mat') /\ bijection (MKZQ mat') (MKZA mat').
Proof.
  induction todo as [|t IH]; intros mat mat' i Hwf Hb Hjs E;
    cbn [MkzUpdateN_loop] in E.
  - injection E as <-. auto.
  - destruct (MkzUpdate mat (rd js i)) as [m|] eqn:Eu; [|discriminate].
    destruct (MkzUpdate_preserves mat m (rd js i) Hwf Hb (Hjs i ltac:(lia)) Eu)
      as (Hwf' & Hb' & Hlen).
    apply (IH m mat' (i + 1)); auto.
    intros i' Hi'. rewrite Hlen. apply Hjs. lia.
Qed.

Lemma rd_map_Zseq (f : Z -> Z) (len : nat) :
  forall lo i, 0 <= i < Z.of_nat len -> rd (map f (Zseq lo len)) i = f (lo + i).
Proof.
  induction len as [|m IH]; intros lo i Hi; [lia|].
  unfold rd. destruct (Z.ltb_spec i 0); [lia|].
  destruct (Z.eq_dec i 0) as [->|Hne].
  - simpl. f_equal. lia.
  - replace (Z.to_nat i) with (S (Z.to_nat (i - 1))) by lia.
    cbn [Zseq map nth].
    specialize (IH (lo + 1) (i - 1) ltac:(lia)). unfold rd in IH.
    destruct (Z.ltb_spec (i - 1) 0); [lia|]. rewrite IH. f_equal. lia.
Qed.

Lemma MkzUpdateN_loop_two_phase (mat : filter_matrix_t) (js mkz : list Z)
  (todo : nat) :
  forall (Q A : list Z) (i : Z),
    queue_wf Q -> bijection Q A ->
    Zlen A = Zlen (MKZA mat) ->
    (forall c, rd A c = MKZ_INF <-> rd (MKZA mat) c = MKZ_INF) ->
    (forall i', i <= i' < i + Z.of_nat todo ->
                0 <= rd js i' < Zlen (MKZA mat) /\
                rd (MKZA mat) (rd js i') <> MKZ_INF /\
                rd mkz i' = idx (MkzCount mat (rd js i'))) ->
    MkzUpdateN_loop (set_queue mat Q A) js i todo =
    Done (set_queue mat (fst (MkzUpdateN_repair Q A js mkz i todo))
                    (snd (MkzUpdateN_repair Q A js mkz i todo))).
Proof.
  induction todo as [|t IH]; intros Q A i Hwf Hb Hlen Hal Hjs;
    cbn [MkzUpdateN_loop MkzUpdateN_repair]; auto.
  destruct (Hjs i ltac:(lia)) as (Hj & Ha & Hm).
  destruct (MkzUpdate_core (set_queue mat Q A) (rd js i)) as
    (Q' & A' & E & Er & Hp & _); cbn [set_queue MKZQ MKZA]; auto.
  - lia.
  - now rewrite Hal.
  - rewrite E. cbn [set_queue MKZQ MKZA wt R rowLength wmstmax mkztype] in *.
    fold (set_queue mat Q A) in Er. rewrite MkzCount_queue in Er.
    rewrite Hm, idx_MkzCount. rewrite <- Er.
    change (mk_filter_matrix (wt mat) (R mat) (rowLength mat) (wmstmax mat)
              (mkztype mat) Q' A') with (set_queue mat Q' A').
    destruct Hp. apply IH; auto.
    + lia.
    + intros c. rewrite sp_alive0. apply Hal.
    + intros i' Hi'. apply Hjs. lia.
Qed.

(** ** The executable checks are sound *)

Lemma queue_wfb_sound (Q : list Z) : queue_wfb Q = true -> queue_wf Q.
Proof.
  unfold queue_wfb, queue_wf. rewrite !andb_true_iff.
  rewrite Z.leb_le, !Z.ltb_lt. tauto.
Qed.

Lemma is_heapb_sound (Q : list Z) : is_heapb Q = true -> is_heap Q.
Proof.
  unfold is_heapb, is_heap. rewrite forallb_forall. intros H k Hk.
  destruct (Z.le_gt_cases k (qn Q)) as [Hle|Hgt]; [|lia].
  specialize (H k). rewrite in_Zseq in H. specialize (H ltac:(lia)).
  apply andb_true_iff in H. destruct H as (Hl & Hr).
  apply orb_true_iff in Hl, Hr. rewrite negb_true_iff in Hl, Hr.
  rewrite !Z.leb_le, Z.leb_gt in Hl, Hr. lia.
Qed.

Lemma bijectionb_sound (Q A : list Z) : bijectionb Q A = true -> bijection Q A.
Proof.
  unfold bijectionb, bijection. rewrite andb_true_iff, !forallb_forall.
  intros (Hs & Hc). split.
  - intros k Hk. specialize (Hs k). rewrite in_Zseq in Hs.
    specialize (Hs ltac:(lia)). apply andb_true_iff in Hs.
    destruct Hs as (Ha & E). rewrite negb_true_iff, Z.eqb_neq in Ha.
    rewrite Z.eqb_eq in E. auto.
  - intros c Hr Ha. specialize (Hc c). rewrite in_Zseq in Hc.
    unfold Zlen in Hr. specialize (Hc ltac:(lia)).
    apply orb_true_iff in Hc. destruct Hc as [Hc|Hc].
    + rewrite Z.eqb_eq in Hc. contradiction.
    + rewrite !andb_true_iff, !Z.leb_le, Z.eqb_eq in Hc. tauto.
Qed.

Lemma is_min_row_lengthb_sound (mat : filter_matrix_t) (j w0 : Z) :
  is_min_row_lengthb mat j w0 = true -> is_min_row_length mat j w0.
Proof.
  unfold is_min_row_lengthb, is_min_row_length. cbv zeta.
  rewrite andb_true_iff, existsb_exists, forallb_forall.
  intros ((k & Hin & E) & Hall). split.
  - exists k. apply in_Zseq in Hin. apply Z.eqb_eq in E. split; [lia|exact E].
  - intros k' Hk'. apply Z.leb_le, Hall, in_Zseq. lia.
Qed.

(** ** Properties of the specification *)

Lemma set_queue_id (mat : filter_matrix_t) :
  set_queue mat (MKZQ mat) (MKZA mat) = mat.
Proof. now destruct mat. Qed.

(** In a heap the root is the cheapest slot. *)
Lemma heap_root_least (Q : list Z) :
  heap_up Q -> forall k, 1 <= k <= qn Q -> cost Q 1 <= cost Q k.
Proof.
  intros Hh.
  assert (H : forall (m : nat) k,
             1 <= k <= qn Q -> k <= Z.of_nat m -> cost Q 1 <= cost Q k).
  { induction m as [|m IH]; intros k Hk Hm; [lia|].
    destruct (Z.eq_dec k 1) as [->|Hne]; [lia|].
    destruct (half_spec k ltac:(lia)) as (Hp & _).
    specialize (IH (k / 2) ltac:(lia) ltac:(lia)).
    specialize (Hh k ltac:(lia)). lia. }
  intros k Hk. apply (H (Z.to_nat k)); lia.
Qed.

(** C2. On a well-formed queue that satisfies the heap property and the
    bijection, [MkzUpdate] on an alive column [j] completes; it writes the
    recomputed cost [MkzCount mat j] into the slot [A[j]] of [j] and then
    runs exactly one sift from that slot: [MkzUpQueue] when the slot has a
    father whose cost is greater than the new one, after which [j] sits
    strictly nearer the root, and [MkzDownQueue] otherwise, after which
    [j] sits at its old slot or further down.  At exit [j] carries the new
    cost, and the heap property over [1..Q[0]] and the bijection hold. *)
Theorem C2_MkzUpdate_restores_heap (mat : filter_matrix_t) (j : Z) :
  let Q := MKZQ mat in
  let A := MKZA mat in
  let adr := rd A j in
  let mkz := MkzCount mat j in
  queue_wf Q -> is_heap Q -> bijection Q A ->
  0 <= j < Zlen A -> MkzIsAlive A j <> 0 ->
  exists Q' A',
    MkzUpdate mat j = Done (set_queue mat Q' A') /\
    (Q', A') = (if moves_up Q adr mkz
                then MkzUpQueue (MkzSet Q adr 1 mkz) A adr
                else MkzDownQueue (MkzSet Q adr 1 mkz) A adr) /\
    (if moves_up Q adr mkz then 1 <= rd A' j < adr
     else adr <= rd A' j <= qn Q') /\
    col Q' (rd A' j) = j /\ cost Q' (rd A' j) = mkz /\
    queue_wf Q' /\ is_heap Q' /\ bijection Q' A'.
Proof.
  intros Q A adr mkz Hwf Hh Hb Hj Ha.
  apply alive_iff in Ha. apply is_heap_heap_up in Hh.
  destruct (alive_slot Q A j Hb Hj Ha) as (Hadr & _).
  destruct (MkzUpdate_core mat j Hwf Hb Hj Ha)
    as (Q' & A' & E & Er & Hp & Hdir & Hheap).
  fold Q A adr mkz in E, Er, Hp, Hdir, Hheap.
  destruct (Hheap Hh) as (Hh' & Hstrict). destruct Hp.
  exists Q', A'. split; [exact E|]. split.
  { rewrite Er. now apply MkzMoveUpOrDown_direction. }
  split.
  { destruct (moves_up Q adr mkz); [|lia].
    specialize (Hstrict eq_refl). lia. }
  destruct sp_bij0 as (Hs & Hc).
  split.
  { apply Hc; [lia|]. apply alive_iff. rewrite sp_alive0. exact Ha. }
  split; [exact sp_cost0|]. split; [exact sp_wf0|]. split.
  - now apply is_heap_heap_up.
  - split; assumption.
Qed.

Section Runs.

Variable incrS : Z -> Z.
Variable decrS : Z -> Z.

(** C3. The bijection holds between any two operations of a run: whatever
    public operations ([MkzUpdate], [MkzUpdateN], [MkzIncrCol],
    [MkzDecreaseColWeight]) are applied to a well-formed queue that
    satisfies it, every state reached when an operation completes
    satisfies it again: [A[Q[k].column] = k] for every live slot [k], and
    [Q[A[c]].column = c] for every alive column [c]. *)
Theorem C3_bijection_preserved (mat : filter_matrix_t) (ops : list queue_op) :
  queue_wf (MKZQ mat) -> bijection (MKZQ mat) (MKZA mat) ->
  Forall (op_ok (Zlen (MKZA mat))) ops ->
  Forall (fun m => bijection (MKZQ m) (MKZA m)) (run_states incrS decrS mat ops).
Proof.
  intros Hwf Hb Hops. revert mat Hwf Hb Hops.
  induction ops as [|op rest IH]; intros mat Hwf Hb Hops; cbn [run_states].
  - constructor; auto.
  - constructor; auto. inversion Hops as [|? ? Hop Hrest]; subst.
    destruct (apply_op incrS decrS mat op) as [m|] eqn:E; [|constructor].
    assert (H : queue_wf (MKZQ m) /\ bijection (MKZQ m) (MKZA m) /\
                Zlen (MKZA m) = Zlen (MKZA mat)).
    { destruct op as [j|js n|j|j]; cbn [apply_op op_ok] in *.
      - now apply (MkzUpdate_preserves mat m j).
      - unfold MkzUpdateN in E.
        assert (Hl : forall todo mat0 mat1 i,
                   queue_wf (MKZQ mat0) -> bijection (MKZQ mat0) (MKZA mat0) ->
                   (forall i', i <= i' < i + Z.of_nat todo ->
                               0 <= rd js i' < Zlen (MKZA mat0)) ->
                   MkzUpdateN_loop mat0 js i todo = Done mat1 ->
                   Zlen (MKZA mat1) = Zlen (MKZA mat0)).
        { induction todo as [|t IHt]; intros mat0 mat1 i H0 H1 H2 H3;
            cbn [MkzUpdateN_loop] in H3.
          - now injection H3 as <-.
          - destruct (MkzUpdate mat0 (rd js i)) as [m0|] eqn:Eu; [|discriminate].
            destruct (MkzUpdate_preserves mat0 m0 (rd js i) H0 H1
                        (H2 i ltac:(lia)) Eu) as (Hw0 & Hb0 & Hl0).
            rewrite <- Hl0. apply (IHt m0 mat1 (i + 1)); auto.
            intros i' Hi'. rewrite Hl0. apply H2. lia. }
        assert (Hr : forall i', 0 <= i' < 0 + Z.of_nat (Z.to_nat n) ->
                                0 <= rd js i' < Zlen (MKZA mat)).
        { intros i' Hi'. apply Hop. lia. }
        destruct (MkzUpdateN_loop_preserves js (Z.to_nat n) mat m 0 Hwf Hb Hr E).
        split; [auto|]. split; [auto|]. now apply (Hl (Z.to_nat n) mat m 0).
      - injection E as <-. now cbn.
      - injection E as <-. now cbn. }
    destruct H as (Hwf' & Hb' & Hlen).
    apply IH; auto. now rewrite Hlen.
Qed.

End Runs.

(** C6. [MkzUpdate] is idempotent: on a well-formed queue that satisfies
    the heap property and the bijection, a first call on an alive column
    completes, and a second call right after it, the matrix being left
    alone, completes with exactly the state (arrays [Q] and [A]) the
    first one left. *)
Theorem C6_MkzUpdate_idempotent (mat : filter_matrix_t) (j : Z) :
  queue_wf (MKZQ mat) -> is_heap (MKZQ mat) ->
  bijection (MKZQ mat) (MKZA mat) ->
  0 <= j < Zlen (MKZA mat) -> MkzIsAlive (MKZA mat) j <> 0 ->
  exists mat1,
    MkzUpdate mat j = Done mat1 /\ MkzUpdate mat1 j = Done mat1.
Proof.
  intros Hwf Hh Hb Hj Ha.
  apply alive_iff in Ha. apply is_heap_heap_up in Hh.
  destruct (MkzUpdate_core mat j Hwf Hb Hj Ha)
    as (Q' & A' & E & _ & Hp & _ & Hheap).
  destruct (Hheap Hh) as (Hh' & _). destruct Hp.
  exists (set_queue mat Q' A'). split; [exact E|].
  unfold MkzUpdate. cbn [set_queue MKZQ MKZA].
  fold (set_queue mat Q' A'). rewrite MkzCount_queue, idx_MkzCount.
  assert (Ha' : rd A' j <> MKZ_INF) by (rewrite sp_alive0; exact Ha).
  destruct (Z.eqb_spec (rd A' j) MKZ_INF); [contradiction|].
  rewrite <- sp_cost0. unfold cost. rewrite MkzSet_same.
  rewrite MkzMoveUpOrDown_fixed by auto. reflexivity.
Qed.

(** C7. For every list [j[0..n-1]] of alive columns (distinct or not) of
    a well-formed queue that satisfies the bijection, [MkzUpdateN]
    completes with the state the two-phase procedure yields: all the new
    costs computed first from the matrix alone, then each cost written and
    the heap repaired, column after column in the order of the list. *)
Theorem C7_MkzUpdateN_two_phase (mat : filter_matrix_t) (j : list Z) (n : Z) :
  queue_wf (MKZQ mat) -> bijection (MKZQ mat) (MKZA mat) ->
  (forall i, 0 <= i < n ->
             0 <= rd j i < Zlen (MKZA mat) /\
             MkzIsAlive (MKZA mat) (rd j i) <> 0) ->
  MkzUpdateN mat j n = Done (MkzUpdateN_two_phase mat j n).
Proof.
  intros Hwf Hb Hj. unfold MkzUpdateN, MkzUpdateN_two_phase.
  set (mkz := map (fun i => idx (MkzCount mat (rd j i))) (Zseq 0 (Z.to_nat n))).
  rewrite <- (set_queue_id mat) at 1.
  rewrite (MkzUpdateN_loop_two_phase mat j mkz); auto.
  - now destruct (MkzUpdateN_repair _ _ _ _ _ _).
  - tauto.
  - intros i Hi. destruct (Hj i ltac:(lia)) as (Hr & Ha).
    apply alive_iff in Ha. split; [auto|]. split; [auto|].
    unfold mkz. rewrite rd_map_Zseq by lia. reflexivity.
Qed.

(** C9. [MkzUpdate] on a dead column ([A[j] = MKZ_INF]) stops at the
    assertion and returns nothing; on an alive column the assertion
    passes and the update runs to its end. *)
Theorem C9_MkzUpdate_dead_column (mat : filter_matrix_t) (j : Z) :
  (MkzIsAlive (MKZA mat) j = 0 -> MkzUpdate mat j = AssertionFailure) /\
  (MkzIsAlive (MKZA mat) j <> 0 -> exists mat', MkzUpdate mat j = Done mat').
Proof.
  unfold MkzIsAlive, MkzUpdate.
  destruct (rd (MKZA mat) j =? MKZ_INF); split; intros H; try lia; auto.
  destruct (MkzMoveUpOrDown _ _ _) as [Q' A']. eauto.
Qed.

(** C10. [MkzUpdate] on an alive column of a well-formed queue that
    satisfies the bijection leaves the matrix alone (weights, row lists,
    row lengths, policy) and, in the queue, keeps the number of elements,
    the columns stored in the live slots (as a multiset), the cost of
    every other column, the set of alive columns and the cells outside the
    live slots; the updated column gets its recomputed cost; slots may
    change, and [A] follows them: the bijection holds at exit. *)
Theorem C10_MkzUpdate_frame (mat : filter_matrix_t) (j : Z) :
  let Q := MKZQ mat in
  let A := MKZA mat in
  queue_wf Q -> bijection Q A ->
  0 <= j < Zlen A -> MkzIsAlive A j <> 0 ->
  exists mat',
    MkzUpdate mat j = Done mat' /\
    let Q' := MKZQ mat' in
    let A' := MKZA mat' in
    wt mat' = wt mat /\ R mat' = R mat /\ rowLength mat' = rowLength mat /\
    (forall i, matLengthRow mat' i = matLengthRow mat i) /\
    wmstmax mat' = wmstmax mat /\ mkztype mat' = mkztype mat /\
    qn Q' = qn Q /\ Zlen Q' = Zlen Q /\ Zlen A' = Zlen A /\
    Permutation (columns Q') (columns Q) /\
    cost Q' (rd A' j) = MkzCount mat j /\
    (forall c, 0 <= c < Zlen A -> c <> j -> MkzIsAlive A c <> 0 ->
               cost Q' (rd A' c) = cost Q (rd A c)) /\
    (forall c, MkzIsAlive A' c = MkzIsAlive A c) /\
    (forall i, i < 2 \/ 2 * qn Q + 1 < i -> rd Q' i = rd Q i) /\
    bijection Q' A'.
Proof.
  intros Q A Hwf Hb Hj Ha. apply alive_iff in Ha.
  destruct (MkzUpdate_core mat j Hwf Hb Hj Ha)
    as (Q' & A' & E & _ & Hp & _).
  fold Q A in Hp. destruct Hp.
  exists (set_queue mat Q' A'). split; [exact E|].
  cbn [set_queue MKZQ MKZA wt R rowLength wmstmax mkztype].
  do 3 (split; [reflexivity|]). split; [intros; reflexivity|].
  do 2 (split; [reflexivity|]).
  split; [exact sp_qn0|]. split; [exact sp_lenQ0|]. split; [exact sp_lenA0|].
  split. { now apply (columns_Permutation Q A Q' A'). }
  split; [exact sp_cost0|].
  split. { intros c Hc Hne Hac. apply sp_others0; auto. now apply alive_iff. }
  split.
  { intros c. unfold MkzIsAlive. specialize (sp_alive0 c).
    destruct (Z.eqb_spec (rd A' c) MKZ_INF), (Z.eqb_spec (rd A c) MKZ_INF);
      tauto. }
  split; [exact sp_out0|exact sp_bij0].
Qed.

Lemma is_min_row_length_unique (mat : filter_matrix_t) (j w0 w1 : Z) :
  is_min_row_length mat j w0 -> is_min_row_length mat j w1 -> w0 = w1.
Proof.
  intros ((k0 & Hk0 & E0) & H0) ((k1 & Hk1 & E1) & H1).
  specialize (H0 k1 Hk1). specialize (H1 k0 Hk0). lia.
Qed.

Lemma pureMkz_low (mat : filter_matrix_t) (j : Z) :
  int_of (rd (wt mat) j) <= 1 -> pureMkz mat j = -4.
Proof.
  intros Hw. unfold pureMkz.
  destruct (Z.leb_spec (int_of (rd (wt mat) j)) 1); [reflexivity|lia].
Qed.

(** C1 (amended). Let [w] be the weight of column [j] as [pureMkz] reads
    it, equal to the number of rows listed for [j].  [pureMkz] returns -4
    when [w <= 1] and -2 when [w = 2]; otherwise the rows listed for [j]
    have a minimum length [w0] and [pureMkz] returns
    [(w0 - 2) * (w - 2) - 2] reduced to a 32-bit [int], which is that
    value itself whenever it lies in the range of [int]. *)
Theorem C1_pureMkz_cost (mat : filter_matrix_t) (j : Z) :
  let w := int_of (rd (wt mat) j) in
  rd (rdl (R mat) j) 0 = w ->
  (w <= 1 -> pureMkz mat j = -4) /\
  (w = 2 -> pureMkz mat j = -2) /\
  (3 <= w ->
   (exists w0, is_min_row_length mat j w0) /\
   forall w0, is_min_row_length mat j w0 ->
     pureMkz mat j = int_of ((w0 - 2) * (w - 2) - 2) /\
     (int_range ((w0 - 2) * (w - 2) - 2) ->
      pureMkz mat j = (w0 - 2) * (w - 2) - 2)).
Proof.
  intros w HR. split; [|split].
  - intros Hw. unfold pureMkz. fold w.
    destruct (Z.leb_spec w 1); [reflexivity|lia].
  - intros Hw. unfold pureMkz. fold w.
    destruct (Z.leb_spec w 1); [lia|].
    destruct (Z.eqb_spec w 2); [reflexivity|lia].
  - intros Hw. destruct (pureMkz_heavy mat j Hw HR) as (w0 & Hmin & E).
    split; [now exists w0|].
    intros w1 Hmin1.
    rewrite (is_min_row_length_unique mat j w1 w0 Hmin1 Hmin).
    fold w in E. split; [exact E|].
    intros Hr. rewrite E. now apply int_of_small.
Qed.

(** C4 (amended). With [wj] the weight of column [j] as [lightColAndMkz]
    reads it: above the threshold [wmstmax] the result is that of
    [pureMkz]; for [wj <= 1] it is -4; for [wj = 2 <= wmstmax] it is
    [weightSum] of the two rows listed for [j] minus the length of each,
    reduced to a 32-bit [int] (that value itself whenever it lies in the
    range of [int]); for [3 <= wj <= wmstmax] it is the cost returned by
    [minCostUsingMST]. *)
Theorem C4_lightColAndMkz_cost (mat : filter_matrix_t) (j : Z) :
  let wj := int_of (rd (wt mat) j) in
  let ind := tl (rdl (R mat) j) in
  let s := weightSum mat (rd ind 0) (rd ind 1) j in
  let l0 := matLengthRow mat (rd ind 0) in
  let l1 := matLengthRow mat (rd ind 1) in
  (wmstmax mat < wj -> lightColAndMkz mat j = pureMkz mat j) /\
  (wj <= 1 -> lightColAndMkz mat j = -4) /\
  (wj = 2 -> 2 <= wmstmax mat ->
   lightColAndMkz mat j = int_of (s - l0 - l1) /\
   (int_range (s - l0 - l1) -> lightColAndMkz mat j = s - l0 - l1)) /\
  (3 <= wj <= wmstmax mat ->
   lightColAndMkz mat j = minCostUsingMST mat wj ind j).
Proof.
  intros wj ind s l0 l1. unfold lightColAndMkz. fold wj ind.
  split; [|split; [|split]].
  - intros H. destruct (Z.leb_spec wj 1) as [H1|H1].
    + unfold pureMkz. fold wj. destruct (Z.leb_spec wj 1); [reflexivity|lia].
    + destruct (Z.leb_spec wj (wmstmax mat)); [lia|reflexivity].
  - intros H. destruct (Z.leb_spec wj 1); [reflexivity|lia].
  - intros H2 Hm. destruct (Z.leb_spec wj 1); [lia|].
    destruct (Z.leb_spec wj (wmstmax mat)); [|lia].
    destruct (Z.eqb_spec wj 2); [|lia].
    fold s l0 l1. rewrite lightCol_arith. split; [reflexivity|].
    apply int_of_small.
  - intros H. destruct (Z.leb_spec wj 1); [lia|].
    destruct (Z.leb_spec wj (wmstmax mat)); [|lia].
    destruct (Z.eqb_spec wj 2); [lia|reflexivity].
Qed.

(** What [MkzClear] reads: nothing unless [verbose] is set; when it is,
    the cost cell of slot [Q[0]], the last live slot at the time of the
    call.  On a heap-ordered, non-empty queue the heap property bounds
    that cell from below by the root only; it need not be the largest
    cost of the queue. *)
Lemma MkzClear_reads_last_slot (mat : filter_matrix_t) (verbose : Z) :
  let Q := MKZQ mat in
  (verbose = 0 -> MkzClear mat verbose = None) /\
  (verbose <> 0 ->
   MkzClear mat verbose = Some (cost Q (qn Q)) /\
   (is_heap Q -> 1 <= qn Q -> root_cost mat <= cost Q (qn Q))).
Proof.
  intros Q. unfold MkzClear. fold Q.
  destruct (Z.eqb_spec verbose 0); split; intros H; try contradiction; auto.
  split; [reflexivity|].
  intros Hh Hn. apply is_heap_heap_up in Hh.
  apply (heap_root_least Q Hh). lia.
Qed.

(** C8. Under the Pure Markowitz policy the cost before the clamp is -4
    for a column of weight 0 or 1, -2 for a column of weight 2, and -2 for
    a column of weight 3 whose three rows have minimum length 2; in the
    three cases [MkzCount] stores 0.  Hence a column of weight 3 with
    [w0 = 2] and a column of weight 2 tie after the clamp: the former does
    not fall below the latter. *)
Theorem C8_pure_costs_at_low_weight (mat : filter_matrix_t) :
  let w := fun j => int_of (rd (wt mat) j) in
  mkztype mat = MKZTYPE_PURE ->
  (forall j, w j = 0 \/ w j = 1 ->
             pureMkz mat j = -4 /\ MkzCount mat j = 0) /\
  (forall j, w j = 2 -> pureMkz mat j = -2 /\ MkzCount mat j = 0) /\
  (forall j, w j = 3 -> rd (rdl (R mat) j) 0 = 3 ->
             is_min_row_length mat j 2 ->
             pureMkz mat j = -2 /\ MkzCount mat j = 0) /\
  (forall j2 j3, w j2 = 2 -> w j3 = 3 -> rd (rdl (R mat) j3) 0 = 3 ->
                 is_min_row_length mat j3 2 ->
                 MkzCount mat j3 = MkzCount mat j2 /\
                 ~ MkzCount mat j3 < MkzCount mat j2).
Proof.
  intros w Hty.
  assert (H01 : forall j, w j = 0 \/ w j = 1 ->
                          pureMkz mat j = -4 /\ MkzCount mat j = 0).
  { intros j Hw. assert (E : pureMkz mat j = -4).
    { apply (pureMkz_low mat j). fold (w j). lia. }
    split; [exact E|]. unfold MkzCount. now rewrite Hty, E. }
  assert (H2 : forall j, w j = 2 -> pureMkz mat j = -2 /\ MkzCount mat j = 0).
  { intros j Hw. assert (E : pureMkz mat j = -2).
    { unfold pureMkz. fold (w j). rewrite Hw. reflexivity. }
    split; [exact E|]. unfold MkzCount. now rewrite Hty, E. }
  assert (H3 : forall j, w j = 3 -> rd (rdl (R mat) j) 0 = 3 ->
                         is_min_row_length mat j 2 ->
                         pureMkz mat j = -2 /\ MkzCount mat j = 0).
  { intros j Hw HR Hmin. assert (E : pureMkz mat j = -2).
    { destruct (pureMkz_heavy mat j) as (w0 & Hm & E); fold (w j);
        try lia.
      rewrite (is_min_row_length_unique mat j w0 2 Hm Hmin) in E.
      fold (w j) in E. rewrite Hw in E. exact E. }
    split; [exact E|]. unfold MkzCount. now rewrite Hty, E. }
  split; [exact H01|]. split; [exact H2|]. split; [exact H3|].
  intros j2 j3 Hw2 Hw3 HR Hmin.
  destruct (H2 j2 Hw2) as (_ & ->). destruct (H3 j3 Hw3 HR Hmin) as (_ & ->).
  lia.
Qed.

(** ** Further properties of the sifts *)

Lemma bijection_put_cost (Q A : list Z) (k c : Z) :
  queue_wf Q -> bijection Q A -> 1 <= k <= qn Q ->
  bijection (put Q k (col Q k) c) A.
Proof.
  intros Hwf (Hs & Hc) Hk.
  assert (Hcol : forall i, 1 <= i <= qn Q ->
                           col (put Q k (col Q k) c) i = col Q i).
  { intros i Hi. destruct (live_index Q i Hwf ltac:(lia)).
    rewrite col_put by auto. destruct (Z.eqb_spec i k); congruence. }
  split; rewrite qn_put by auto.
  - intros i Hi. rewrite Hcol by auto. now apply Hs.
  - intros x Hx Ha. destruct (Hc x Hx Ha) as (Hr & E).
    split; [exact Hr|]. now rewrite Hcol.
Qed.

Lemma smaller_son_cheaper_son (Q : list Z) (k : Z) :
  queue_wf Q -> 1 <= k -> 2 * k <= qn Q ->
  smaller_son Q k = cheaper_son Q k.
Proof.
  intros Hwf Hk Hn. unfold smaller_son, cheaper_son.
  rewrite (idx_double_live Q k) by (auto; lia). fold (qn Q).
  destruct Hwf as (H0 & Hl & Hb).
  destruct (Z.ltb_spec (2 * k) (qn Q)), (Z.leb_spec (2 * k + 1) (qn Q));
    try lia; cbn [andb]; [|reflexivity].
  rewrite (idx_small (2 * k + 1)) by lia. reflexivity.
Qed.

(** A slot whose sons are no cheaper is left where it is. *)
Lemma MkzDownQueue_stays (Q A : list Z) (k : Z) :
  queue_wf Q -> bijection Q A -> 1 <= k <= qn Q ->
  (qn Q < 2 * k \/ cost Q k <= cost Q (cheaper_son Q k)) ->
  MkzDownQueue Q A k = (Q, A).
Proof.
  intros Hwf Hb Hk Hx. unfold MkzDownQueue.
  assert (E : MkzDownQueue_loop (Z.to_nat (rd Q 0)) Q A k (MkzGet Q k 1)
              = (Q, A, k)).
  { fold (qn Q). destruct (Z.to_nat (qn Q)) as [|f] eqn:Ef; [reflexivity|].
    cbn [MkzDownQueue_loop].
    rewrite (idx_double_live Q k) by (auto; lia). fold (qn Q).
    destruct (Z.leb_spec (2 * k) (qn Q)) as [Hs|Hs]; auto.
    rewrite smaller_son_cheaper_son by (auto; lia).
    fold (cost Q k) (cost Q (cheaper_son Q k)).
    destruct (Z.leb_spec (cost Q k) (cost Q (cheaper_son Q k))); [auto|lia]. }
  rewrite E. rewrite !MkzSet_same.
  destruct Hb as (Hs & _). destruct (Hs k Hk) as (_ & Hak).
  fold (col Q k). rewrite <- Hak at 2. now rewrite wr_rd_same.
Qed.

(** The root, or a slot whose father is strictly cheaper, is left where
    it is. *)
Lemma MkzUpQueue_stays (Q A : list Z) (k : Z) :
  bijection Q A -> 1 <= k <= qn Q ->
  (k = 1 \/ cost Q (k / 2) < cost Q k) ->
  MkzUpQueue Q A k = (Q, A).
Proof.
  intros Hb Hk Hx. unfold MkzUpQueue.
  assert (E : MkzUpQueue_loop (Z.to_nat k) Q A k (MkzGet Q k 1) = (Q, A, k)).
  { destruct (Z.to_nat k) as [|f] eqn:Ef; [reflexivity|].
    cbn [MkzUpQueue_loop]. fold (cost Q k) (cost Q (k / 2)).
    destruct (Z.ltb_spec 1 k); cbn [andb]; [|reflexivity].
    destruct (Z.leb_spec (cost Q k) (cost Q (k / 2))); [lia|reflexivity]. }
  rewrite E. rewrite !MkzSet_same.
  destruct Hb as (Hs & _). destruct (Hs k Hk) as (_ & Hak).
  fold (col Q k). rewrite <- Hak at 2. now rewrite wr_rd_same.
Qed.

Lemma up_inv_init_le (Q0 : list Z) (k d c : Z) :
  queue_wf Q0 -> heap_up Q0 -> 1 <= k <= qn Q0 -> c <= cost Q0 k ->
  up_inv (put Q0 k d c) k c.
Proof.
  intros Hwf Hh Hk Hc. split; rewrite qn_put by (auto; lia).
  - intros i Hi Hik Hhk. cput; try lia. now apply Hh.
  - intros i Hi Hhk.
    pose proof (Hh i Hi) as H1. rewrite Hhk in H1.
    destruct (half_spec i ltac:(lia)) as (Hp & _).
    split.
    + cput; try lia.
    + intros Hk1. pose proof (Hh k ltac:(lia)) as H2.
      destruct (half_spec k ltac:(lia)) as (Hq & _).
      cput; try lia.
Qed.

Lemma MkzUpQueue_heap_le (Q0 A0 : list Z) (k c : Z) :
  queue_wf Q0 -> bijection Q0 A0 -> heap_up Q0 ->
  1 <= k <= qn Q0 -> c <= cost Q0 k ->
  heap_up (fst (MkzUpQueue (put Q0 k (col Q0 k) c) A0 k)).
Proof.
  intros Hwf Hb Hh Hk Hc. unfold MkzUpQueue.
  fold (col (put Q0 k (col Q0 k) c) k) (cost (put Q0 k (col Q0 k) c) k).
  destruct (live_index Q0 k Hwf ltac:(lia)) as (Hk0 & Hk1).
  rewrite col_put, cost_put, Z.eqb_refl by (auto; lia).
  pose proof (hole_inv_init Q0 A0 k (col Q0 k) c Hwf Hb ltac:(lia)) as H.
  destruct (MkzUpQueue_loop_heap Q0 A0 (col Q0 k) c (Z.to_nat k) _ _ _ H
              (up_inv_init_le Q0 k (col Q0 k) c Hwf Hh Hk Hc) ltac:(lia))
    as (Q' & A' & k' & -> & Hi & Hu & Hx & _).
  cbn [fst snd]. fold (put Q' k' (col Q0 k) c).
  apply up_inv_final; auto.
  - apply (hi_wf _ _ _ _ _ _ Hi).
  - apply (hi_k _ _ _ _ _ _ Hi).
Qed.

(** X1. Decrease-key: when the cost of a live slot [k] of a heap is
    lowered to [c] (or left as it is), [MkzUpQueue] from [k] restores the
    heap property and keeps the bijection; the column ends at [k] or
    nearer the root, with cost [c]. *)
Theorem X1_MkzUpQueue_decrease_key (Q A : list Z) (k c : Z) :
  queue_wf Q -> is_heap Q -> bijection Q A ->
  1 <= k <= qn Q -> c <= cost Q k ->
  let r := MkzUpQueue (MkzSet Q k 1 c) A k in
  queue_wf (fst r) /\ is_heap (fst r) /\ bijection (fst r) (snd r) /\
  qn (fst r) = qn Q /\
  1 <= rd (snd r) (col Q k) <= k /\
  cost (fst r) (rd (snd r) (col Q k)) = c.
Proof.
  intros Hwf Hh Hb Hk Hc. cbv zeta. rewrite MkzSet_cost_put.
  apply is_heap_heap_up in Hh.
  destruct (MkzUpQueue_post Q A k c Hwf Hb Hk) as (Hp & Hpos).
  pose proof (MkzUpQueue_heap_le Q A k c Hwf Hb Hh Hk Hc) as Hh'.
  destruct Hp. split; [assumption|]. split; [now apply is_heap_heap_up|].
  split; [assumption|]. split; [assumption|]. split; assumption.
Qed.

(** X2. Increase-key: when the cost of a live slot [k] of a heap is raised
    to [c] (or left as it is), [MkzDownQueue] from [k] restores the heap
    property and keeps the bijection; the column ends at [k] or further
    from the root, with cost [c]. *)
Theorem X2_MkzDownQueue_increase_key (Q A : list Z) (k c : Z) :
  queue_wf Q -> is_heap Q -> bijection Q A ->
  1 <= k <= qn Q -> cost Q k <= c ->
  let r := MkzDownQueue (MkzSet Q k 1 c) A k in
  queue_wf (fst r) /\ is_heap (fst r) /\ bijection (fst r) (snd r) /\
  qn (fst r) = qn Q /\
  k <= rd (snd r) (col Q k) <= qn Q /\
  cost (fst r) (rd (snd r) (col Q k)) = c.
Proof.
  intros Hwf Hh Hb Hk Hc. cbv zeta. rewrite MkzSet_cost_put.
  apply is_heap_heap_up in Hh.
  destruct (MkzDownQueue_post Q A k c Hwf Hb Hk) as (Hp & Hpos).
  assert (Hh' : heap_up (fst (MkzDownQueue (put Q k (col Q k) c) A k))).
  { apply MkzDownQueue_heap; auto. intros H1.
    pose proof (Hh k ltac:(lia)). lia. }
  destruct Hp. split; [assumption|]. split; [now apply is_heap_heap_up|].
  split; [assumption|]. split; [assumption|]. split; assumption.
Qed.

(** ** The path of a sift *)

Lemma ancestor_refl (k : Z) : ancestor k k.
Proof. exists 0. split; [lia|apply Z.shiftr_0_r]. Qed.

Lemma ancestor_father (a k : Z) : ancestor a (k / 2) -> ancestor a k.
Proof.
  intros (m & Hm & E). exists (1 + m). split; [lia|].
  rewrite <- Z.shiftr_shiftr by lia.
  rewrite (Z.shiftr_div_pow2 k 1) by lia. exact E.
Qed.

Lemma ancestor_son (k j i : Z) : j / 2 = k -> ancestor j i -> ancestor k i.
Proof.
  intros Hj (m & Hm & E). exists (m + 1). split; [lia|].
  rewrite <- Z.shiftr_shiftr by lia. rewrite E.
  rewrite (Z.shiftr_div_pow2 j 1) by lia. exact Hj.
Qed.

Lemma ancestor_le (a d : Z) : 0 <= d -> ancestor a d -> 0 <= a <= d.
Proof.
  intros Hd (m & Hm & <-). rewrite Z.shiftr_div_pow2 by lia.
  assert (0 < 2 ^ m) by (apply Z.pow_pos_nonneg; lia).
  split.
  - apply Z.div_pos; lia.
  - apply Z.div_le_upper_bound; nia.
Qed.

Lemma MkzUpQueue_loop_path (Q0 A0 : list Z) (dj count : Z) (fuel : nat) :
  forall Q A k, hole_inv Q0 A0 dj Q A k ->
  exists Q' A' k',
    MkzUpQueue_loop fuel Q A k count = (Q', A', k') /\
    hole_inv Q0 A0 dj Q' A' k' /\ ancestor k' k /\
    forall i, 1 <= i <= qn Q -> ~ ancestor i k ->
              col Q' i = col Q i /\ cost Q' i = cost Q i.
Proof.
  induction fuel as [|f IH]; intros Q A k H; cbn [MkzUpQueue_loop].
  - exists Q, A, k. split; [reflexivity|]. split; [exact H|].
    split; [apply ancestor_refl|auto].
  - pose proof (hi_k _ _ _ _ _ _ H) as Hk.
    pose proof (hi_wf _ _ _ _ _ _ H) as Hwf.
    destruct ((1 <? k) && (count <=? MkzGet Q (k / 2) 1)) eqn:Hc.
    + apply andb_true_iff in Hc. destruct Hc as (Hc & _).
      apply Z.ltb_lt in Hc. destruct (half_spec k ltac:(lia)) as (Hh & _).
      rewrite MkzAssign_put by (auto; lia).
      destruct (IH _ _ _ (hole_inv_step _ _ _ _ _ k (k / 2) H
                            ltac:(lia) ltac:(lia)))
        as (Q' & A' & k' & E & Hi & Ha & Hfr).
      exists Q', A', k'. split; [exact E|]. split; [exact Hi|].
      split; [now apply ancestor_father|].
      intros i Hi' Hna. rewrite qn_put in Hfr by (auto; lia).
      destruct (Hfr i Hi') as (-> & ->).
      { intros Hanc. apply Hna. now apply ancestor_father. }
      destruct (live_index Q i Hwf ltac:(lia)).
      rewrite col_put, cost_put by (auto; lia).
      destruct (Z.eqb_spec i k) as [->|Hne]; [|auto].
      exfalso. apply Hna, ancestor_refl.
    + exists Q, A, k. split; [reflexivity|]. split; [exact H|].
      split; [apply ancestor_refl|auto].
Qed.

Lemma MkzDownQueue_loop_path (Q0 A0 : list Z) (dj count : Z) (fuel : nat) :
  forall Q A k, hole_inv Q0 A0 dj Q A k ->
  exists Q' A' k',
    MkzDownQueue_loop fuel Q A k count = (Q', A', k') /\
    hole_inv Q0 A0 dj Q' A' k' /\ ancestor k k' /\
    forall i, 1 <= i <= qn Q -> ~ ancestor k i ->
              col Q' i = col Q i /\ cost Q' i = cost Q i.
Proof.
  induction fuel as [|f IH]; intros Q A k H; cbn [MkzDownQueue_loop];
    pose proof (hi_k _ _ _ _ _ _ H) as Hk;
    pose proof (hi_wf _ _ _ _ _ _ H) as Hwf.
  - exists Q, A, k. split; [reflexivity|]. split; [exact H|].
    split; [apply ancestor_refl|auto].
  - rewrite (idx_double_live Q k) by (auto; lia). fold (qn Q).
    destruct (Z.leb_spec (2 * k) (qn Q)) as [Hs|Hs].
    + destruct (smaller_son_spec Q k Hwf ltac:(lia) Hs) as (Hj & _).
      destruct (count <=? MkzGet Q (smaller_son Q k) 1).
      * exists Q, A, k. split; [reflexivity|]. split; [exact H|].
        split; [apply ancestor_refl|auto].
      * rewrite MkzAssign_put by (auto; lia).
        assert (Hson : smaller_son Q k / 2 = k) by dlia.
        destruct (IH _ _ _ (hole_inv_step _ _ _ _ _ k (smaller_son Q k) H
                              ltac:(lia) ltac:(lia)))
          as (Q' & A' & k' & E & Hi & Ha & Hfr).
        exists Q', A', k'. split; [exact E|]. split; [exact Hi|].
        split; [now apply (ancestor_son k (smaller_son Q k))|].
        intros i Hi' Hna. rewrite qn_put in Hfr by (auto; lia).
        destruct (Hfr i Hi') as (-> & ->).
        { intros Hanc. apply Hna.
          now apply (ancestor_son k (smaller_son Q k)). }
        destruct (live_index Q i Hwf ltac:(lia)).
        rewrite col_put, cost_put by (auto; lia).
        destruct (Z.eqb_spec i k) as [->|Hne]; [|auto].
        exfalso. apply Hna, ancestor_refl.
    + exists Q, A, k. split; [reflexivity|]. split; [exact H|].
      split; [apply ancestor_refl|auto].
Qed.

(** X3. A sift touches one path only.  [MkzUpQueue] from a live slot [k]
    changes no slot but [k] and its ancestors and leaves the column on
    one of them; [MkzDownQueue] changes no slot but [k] and its
    descendants and leaves the column on one of them. *)
Theorem X3_sift_path (Q A : list Z) (k : Z) :
  queue_wf Q -> bijection Q A -> 1 <= k <= qn Q ->
  let up := MkzUpQueue Q A k in
  let down := MkzDownQueue Q A k in
  (ancestor (rd (snd up) (col Q k)) k /\
   forall i, 1 <= i <= qn Q -> ~ ancestor i k ->
             col (fst up) i = col Q i /\ cost (fst up) i = cost Q i) /\
  (ancestor k (rd (snd down) (col Q k)) /\
   forall i, 1 <= i <= qn Q -> ~ ancestor k i ->
             col (fst down) i = col Q i /\ cost (fst down) i = cost Q i).
Proof.
  intros Hwf Hb Hk. cbv zeta.
  pose proof (hole_inv_init Q A k (col Q k) (cost Q k) Hwf Hb Hk) as H.
  rewrite put_same in H.
  split.
  - unfold MkzUpQueue. fold (col Q k) (cost Q k).
    destruct (MkzUpQueue_loop_path Q A (col Q k) (cost Q k) (Z.to_nat k)
                _ _ _ H) as (Q' & A' & k' & -> & Hi & Ha & Hfr).
    cbn [fst snd]. fold (put Q' k' (col Q k) (cost Q k)).
    destruct (hole_inv_final _ _ _ (cost Q k) _ _ _ Hi) as (_ & ->).
    split; [exact Ha|]. intros i Hi' Hna.
    destruct (Hfr i Hi' Hna) as (<- & <-).
    pose proof (hi_wf _ _ _ _ _ _ Hi) as Hwf'.
    pose proof (hi_k _ _ _ _ _ _ Hi) as Hk'.
    pose proof (hi_qn _ _ _ _ _ _ Hi) as Hn'.
    destruct (live_index Q' i Hwf' ltac:(lia)).
    rewrite col_put, cost_put by auto.
    destruct (Z.eqb_spec i k') as [->|Hne]; [contradiction|auto].
  - unfold MkzDownQueue. fold (col Q k) (cost Q k).
    destruct (MkzDownQueue_loop_path Q A (col Q k) (cost Q k)
                (Z.to_nat (rd Q 0)) _ _ _ H)
      as (Q' & A' & k' & -> & Hi & Ha & Hfr).
    cbn [fst snd]. fold (put Q' k' (col Q k) (cost Q k)).
    destruct (hole_inv_final _ _ _ (cost Q k) _ _ _ Hi) as (_ & ->).
    split; [exact Ha|]. intros i Hi' Hna.
    destruct (Hfr i Hi' Hna) as (<- & <-).
    pose proof (hi_wf _ _ _ _ _ _ Hi) as Hwf'.
    pose proof (hi_k _ _ _ _ _ _ Hi) as Hk'.
    pose proof (hi_qn _ _ _ _ _ _ Hi) as Hn'.
    destruct (live_index Q' i Hwf' ltac:(lia)).
    rewrite col_put, cost_put by auto.
    destruct (Z.eqb_spec i k') as [->|Hne]; [contradiction|auto].
Qed.

(** X4. Ties in [MkzUpQueue].  From the root, or from a slot whose
    father is strictly cheaper, nothing changes.  From a slot [k > 1]
    whose father is dearer or of equal cost, the father comes down to
    slot [k] and the column ends at the slot of the father or above: an
    equal father does not stop it. *)
Theorem X4_MkzUpQueue_ties (Q A : list Z) (k : Z) :
  queue_wf Q -> bijection Q A -> 1 <= k <= qn Q ->
  let r := MkzUpQueue Q A k in
  (k = 1 \/ cost Q (k / 2) < cost Q k -> r = (Q, A)) /\
  (1 < k -> cost Q k <= cost Q (k / 2) ->
   col (fst r) k = col Q (k / 2) /\ cost (fst r) k = cost Q (k / 2) /\
   1 <= rd (snd r) (col Q k) <= k / 2).
Proof.
  intros Hwf Hb Hk. cbv zeta. split.
  - now apply MkzUpQueue_stays.
  - intros H1 Hc. destruct (half_spec k ltac:(lia)) as (Hp & _).
    pose proof (hole_inv_init Q A k (col Q k) (cost Q k) Hwf Hb Hk) as H.
    rewrite put_same in H.
    unfold MkzUpQueue. fold (col Q k) (cost Q k).
    destruct (Z.to_nat k) as [|f] eqn:Ef; [lia|].
    cbn [MkzUpQueue_loop]. fold (cost Q (k / 2)).
    destruct (Z.ltb_spec 1 k); [|lia]. cbn [andb].
    destruct (Z.leb_spec (cost Q k) (cost Q (k / 2))); [|lia].
    rewrite MkzAssign_put by (auto; lia).
    pose proof (hole_inv_step _ _ _ _ _ k (k / 2) H ltac:(lia) ltac:(lia))
      as Hs.
    destruct (MkzUpQueue_loop_path Q A (col Q k) (cost Q k) f _ _ _ Hs)
      as (Q' & A' & k' & -> & Hi & Ha & Hfr).
    cbn [fst snd]. fold (put Q' k' (col Q k) (cost Q k)).
    destruct (hole_inv_final _ _ _ (cost Q k) _ _ _ Hi) as (_ & ->).
    destruct (ancestor_le k' (k / 2) ltac:(lia) Ha) as (_ & Hle).
    pose proof (hi_wf _ _ _ _ _ _ Hi) as Hwf'.
    pose proof (hi_k _ _ _ _ _ _ Hi) as Hk'.
    pose proof (hi_qn _ _ _ _ _ _ Hi) as Hn'.
    rewrite qn_put in Hfr by (auto; lia).
    destruct (Hfr k ltac:(lia)) as (E1 & E2).
    { intros Hanc. apply ancestor_le in Hanc; lia. }
    destruct (live_index Q k Hwf ltac:(lia)).
    destruct (live_index Q' k Hwf' ltac:(lia)).
    rewrite col_put in E1 by (auto; lia).
    rewrite cost_put in E2 by (auto; lia).
    rewrite Z.eqb_refl in E1, E2.
    rewrite col_put, cost_put by (auto; lia).
    destruct (Z.eqb_spec k k'); [lia|].
    split; [exact E1|]. split; [exact E2|lia].
Qed.

(** X5. Ties in [MkzDownQueue].  From a slot without a son, or whose
    cost does not exceed that of its cheaper son (the left one when the
    two sons cost the same), nothing changes.  Otherwise that son comes
    up to slot [k] and the column ends at the slot of the son or
    below. *)
Theorem X5_MkzDownQueue_sons (Q A : list Z) (k : Z) :
  queue_wf Q -> bijection Q A -> 1 <= k <= qn Q ->
  let r := MkzDownQueue Q A k in
  let s := cheaper_son Q k in
  (qn Q < 2 * k \/ cost Q k <= cost Q s -> r = (Q, A)) /\
  (2 * k <= qn Q -> cost Q s < cost Q k ->
   col (fst r) k = col Q s /\ cost (fst r) k = cost Q s /\
   s <= rd (snd r) (col Q k) <= qn Q).
Proof.
  intros Hwf Hb Hk. cbv zeta. split.
  - now apply MkzDownQueue_stays.
  - intros Hn Hc.
    pose proof (hole_inv_init Q A k (col Q k) (cost Q k) Hwf Hb Hk) as H.
    rewrite put_same in H.
    destruct (smaller_son_spec Q k Hwf ltac:(lia) Hn) as (Hj & _).
    rewrite <- (smaller_son_cheaper_son Q k Hwf ltac:(lia) Hn) in *.
    unfold MkzDownQueue. fold (col Q k) (cost Q k) (qn Q).
    destruct (Z.to_nat (qn Q)) as [|f] eqn:Ef; [lia|].
    cbn [MkzDownQueue_loop].
    rewrite (idx_double_live Q k) by (auto; lia). fold (qn Q).
    destruct (Z.leb_spec (2 * k) (qn Q)); [|lia].
    fold (cost Q (smaller_son Q k)).
    destruct (Z.leb_spec (cost Q k) (cost Q (smaller_son Q k))); [lia|].
    rewrite MkzAssign_put by (auto; lia).
    pose proof (hole_inv_step _ _ _ _ _ k (smaller_son Q k) H
                  ltac:(lia) ltac:(lia)) as Hs.
    destruct (MkzDownQueue_loop_path Q A (col Q k) (cost Q k) f _ _ _ Hs)
      as (Q' & A' & k' & -> & Hi & Ha & Hfr).
    cbn [fst snd]. fold (put Q' k' (col Q k) (cost Q k)).
    destruct (hole_inv_final _ _ _ (cost Q k) _ _ _ Hi) as (_ & ->).
    pose proof (hi_wf _ _ _ _ _ _ Hi) as Hwf'.
    pose proof (hi_k _ _ _ _ _ _ Hi) as Hk'.
    pose proof (hi_qn _ _ _ _ _ _ Hi) as Hn'.
    destruct (ancestor_le (smaller_son Q k) k' ltac:(lia) Ha) as (_ & Hle).
    rewrite qn_put in Hfr by (auto; lia).
    destruct (Hfr k ltac:(lia)) as (E1 & E2).
    { intros Hanc. apply ancestor_le in Hanc; lia. }
    destruct (live_index Q k Hwf ltac:(lia)).
    destruct (live_index Q' k Hwf' ltac:(lia)).
    rewrite col_put in E1 by (auto; lia).
    rewrite cost_put in E2 by (auto; lia).
    rewrite Z.eqb_refl in E1, E2.
    rewrite col_put, cost_put by (auto; lia).
    destruct (Z.eqb_spec k k'); [lia|].
    split; [exact E1|]. split; [exact E2|lia].
Qed.

(** ** Further properties of [MkzUpdate] and [MkzUpdateN] *)

Lemma cheaper_son_range (Q : list Z) (k : Z) :
  2 * k <= qn Q ->
  (cheaper_son Q k = 2 * k \/ cheaper_son Q k = 2 * k + 1) /\
  cheaper_son Q k <= qn Q.
Proof.
  intros Hn. unfold cheaper_son.
  destruct (Z.leb_spec (2 * k + 1) (qn Q)); cbn [andb]; [|lia].
  destruct (cost Q (2 * k + 1) <? cost Q (2 * k)); lia.
Qed.

Lemma alive_eq (A A' : list Z) :
  (forall c, rd A' c = MKZ_INF <-> rd A c = MKZ_INF) ->
  forall c, MkzIsAlive A' c = MkzIsAlive A c.
Proof.
  intros H c. unfold MkzIsAlive. specialize (H c).
  destruct (Z.eqb_spec (rd A' c) MKZ_INF), (Z.eqb_spec (rd A c) MKZ_INF);
    tauto.
Qed.

Lemma queue_kept_refl (mat : filter_matrix_t) :
  queue_wf (MKZQ mat) -> bijection (MKZQ mat) (MKZA mat) ->
  queue_kept mat mat.
Proof. intros. unfold queue_kept. auto 10. Qed.

Lemma queue_kept_trans (m1 m2 m3 : filter_matrix_t) :
  queue_kept m1 m2 -> queue_kept m2 m3 -> queue_kept m1 m3.
Proof.
  intros (L1 & A1 & N1 & W1 & B1 & H1) (L2 & A2 & N2 & W2 & B2 & H2).
  unfold queue_kept. split; [congruence|]. split.
  - intros c. now rewrite A2, A1.
  - split; [congruence|]. auto.
Qed.

Lemma MkzUpdate_kept (mat mat' : filter_matrix_t) (j : Z) :
  queue_wf (MKZQ mat) -> bijection (MKZQ mat) (MKZA mat) ->
  0 <= j < Zlen (MKZA mat) -> MkzUpdate mat j = Done mat' ->
  queue_kept mat mat'.
Proof.
  intros Hwf Hb Hj E.
  destruct (Z.eq_dec (rd (MKZA mat) j) MKZ_INF) as [Hd|Ha].
  - unfold MkzUpdate in E. rewrite Hd, Z.eqb_refl in E. discriminate.
  - destruct (MkzUpdate_core mat j Hwf Hb Hj Ha)
      as (Q' & A' & E' & _ & Hp & _ & Hh).
    rewrite E' in E. injection E as <-. unfold queue_kept.
    cbn [set_queue MKZQ MKZA]. destruct Hp.
    split; [assumption|]. split; [now apply alive_eq|].
    split; [assumption|]. split; [assumption|]. split; [assumption|].
    intros H. now apply Hh.
Qed.

Lemma MkzUpdateN_loop_kept (js : list Z) (todo : nat) :
  forall (mat mat' : filter_matrix_t) (i : Z),
    queue_wf (MKZQ mat) -> bijection (MKZQ mat) (MKZA mat) ->
    (forall i', i <= i' < i + Z.of_nat todo ->
                0 <= rd js i' < Zlen (MKZA mat)) ->
    MkzUpdateN_loop mat js i todo = Done mat' ->
    queue_kept mat mat'.
Proof.
  induction todo as [|t IH]; intros mat mat' i Hwf Hb Hjs E;
    cbn [MkzUpdateN_loop] in E.
  - injection E as <-. now apply queue_kept_refl.
  - destruct (MkzUpdate mat (rd js i)) as [m|] eqn:Eu; [|discriminate].
    pose proof (MkzUpdate_kept mat m (rd js i) Hwf Hb (Hjs i ltac:(lia)) Eu)
      as Hk.
    apply (queue_kept_trans mat m mat' Hk).
    destruct Hk as (Hl & _ & _ & Hwf' & Hb' & _).
    apply (IH m mat' (i + 1)); auto.
    intros i' Hi'. rewrite Hl. apply Hjs. lia.
Qed.

(** X6. When the recomputed cost of an alive column equals the cost the
    queue holds for it, [MkzUpdate] on a heap changes nothing at all. *)
Theorem X6_MkzUpdate_same_cost (mat : filter_matrix_t) (j : Z) :
  queue_wf (MKZQ mat) -> is_heap (MKZQ mat) ->
  bijection (MKZQ mat) (MKZA mat) ->
  0 <= j < Zlen (MKZA mat) -> MkzIsAlive (MKZA mat) j <> 0 ->
  MkzCount mat j = cost (MKZQ mat) (rd (MKZA mat) j) ->
  MkzUpdate mat j = Done mat.
Proof.
  intros Hwf Hh Hb Hj Ha Hc.
  apply alive_iff in Ha. apply is_heap_heap_up in Hh.
  destruct (alive_slot _ _ j Hb Hj Ha) as (Hadr & _).
  unfold MkzUpdate.
  destruct (Z.eqb_spec (rd (MKZA mat) j) MKZ_INF); [contradiction|].
  rewrite idx_MkzCount, Hc. unfold cost. rewrite MkzSet_same.
  rewrite MkzMoveUpOrDown_fixed by auto. now rewrite set_queue_id.
Qed.

(** A slot of a heap whose cost was lowered has no cheaper son. *)
Lemma MkzDownQueue_stays_lowered (Q A : list Z) (k c : Z) :
  queue_wf Q -> heap_up Q -> bijection Q A -> 1 <= k <= qn Q ->
  c <= cost Q k ->
  MkzDownQueue (put Q k (col Q k) c) A k = (put Q k (col Q k) c, A).
Proof.
  intros Hwf Hh Hb Hk Hc. apply MkzDownQueue_stays.
  - now apply queue_wf_put.
  - now apply bijection_put_cost.
  - rewrite qn_put; auto.
  - rewrite qn_put by auto.
    destruct (Z.le_gt_cases (2 * k) (qn Q)) as [Hs|Hs]; [right|left; lia].
    assert (Hson : (cheaper_son (put Q k (col Q k) c) k = 2 * k \/
                    cheaper_son (put Q k (col Q k) c) k = 2 * k + 1)
                   /\ cheaper_son (put Q k (col Q k) c) k
                      <= qn (put Q k (col Q k) c)).
    { apply cheaper_son_range. rewrite qn_put; auto. }
    rewrite qn_put in Hson by auto. destruct Hson as (Hcase & Hsn).
    remember (cheaper_son (put Q k (col Q k) c) k) as s.
    rewrite !cost_put_live by (auto; lia).
    rewrite Z.eqb_refl. destruct (Z.eqb_spec s k); [lia|].
    pose proof (Hh s ltac:(lia)) as Hs'.
    replace (s / 2) with k in Hs' by dlia. lia.
Qed.

(** X7. [MkzUpdate] on a heap moves a column the way its cost went: a
    column whose cost did not grow is not further from the root
    afterwards, a column whose cost did not shrink is not nearer. *)
Theorem X7_MkzUpdate_direction (mat : filter_matrix_t) (j : Z) :
  queue_wf (MKZQ mat) -> is_heap (MKZQ mat) ->
  bijection (MKZQ mat) (MKZA mat) ->
  0 <= j < Zlen (MKZA mat) -> MkzIsAlive (MKZA mat) j <> 0 ->
  exists mat',
    MkzUpdate mat j = Done mat' /\
    (MkzCount mat j <= cost (MKZQ mat) (rd (MKZA mat) j) ->
     rd (MKZA mat') j <= rd (MKZA mat) j) /\
    (cost (MKZQ mat) (rd (MKZA mat) j) <= MkzCount mat j ->
     rd (MKZA mat) j <= rd (MKZA mat') j).
Proof.
  intros Hwf Hh Hb Hj Ha.
  apply alive_iff in Ha. apply is_heap_heap_up in Hh.
  destruct (alive_slot _ _ j Hb Hj Ha) as (Hadr & Hcol).
  destruct (MkzUpdate_core mat j Hwf Hb Hj Ha)
    as (Q' & A' & E & Er & _ & Hdir & _).
  exists (set_queue mat Q' A'). split; [exact E|].
  cbn [set_queue MKZA].
  set (Q := MKZQ mat) in *. set (A := MKZA mat) in *.
  set (adr := rd A j) in *. set (mkz := MkzCount mat j) in *.
  rewrite MkzMoveUpOrDown_direction in Er by auto.
  assert (Hstay : mkz <= cost Q adr ->
                  MkzDownQueue (MkzSet Q adr 1 mkz) A adr
                  = (MkzSet Q adr 1 mkz, A)).
  { intros Hle. rewrite MkzSet_cost_put.
    now apply MkzDownQueue_stays_lowered. }
  unfold moves_up in *.
  destruct (Z.eqb_spec adr 1) as [H1|H1]; cbn [negb andb] in *.
  - split; [|lia]. intros Hle. rewrite (Hstay Hle) in Er.
    injection Er as _ ->. lia.
  - destruct (Z.ltb_spec mkz (cost Q (adr / 2))) as [Hlt|Hge].
    + split; [lia|]. intros Hle.
      pose proof (Hh adr ltac:(lia)). lia.
    + split; [|lia]. intros Hle. rewrite (Hstay Hle) in Er.
      injection Er as _ ->. lia.
Qed.

(** X8. [MkzUpdateN] stops at an assertion exactly when one of the
    columns it is given is dead: the updates of the columns before it
    kill no column and revive none. *)
Theorem X8_MkzUpdateN_failure (mat : filter_matrix_t) (j : list Z) (n : Z) :
  queue_wf (MKZQ mat) -> bijection (MKZQ mat) (MKZA mat) ->
  (forall i, 0 <= i < n -> 0 <= rd j i < Zlen (MKZA mat)) ->
  (MkzUpdateN mat j n = AssertionFailure <->
   exists i, 0 <= i < n /\ MkzIsAlive (MKZA mat) (rd j i) = 0).
Proof.
  intros Hwf Hb Hj. unfold MkzUpdateN.
  assert (H : forall todo m i0,
             queue_kept mat m ->
             (forall i, i0 <= i < i0 + Z.of_nat todo ->
                        0 <= rd j i < Zlen (MKZA mat)) ->
             (MkzUpdateN_loop m j i0 todo = AssertionFailure <->
              exists i, i0 <= i < i0 + Z.of_nat todo /\
                        MkzIsAlive (MKZA mat) (rd j i) = 0)).
  { induction todo as [|t IH]; intros m i0 Hk Hr; cbn [MkzUpdateN_loop].
    - split; [discriminate|]. intros (i & Hi & _). lia.
    - destruct Hk as (Hl & Hal & Hn & Hwf' & Hb' & Hh').
      destruct (MkzUpdate m (rd j i0)) as [m'|] eqn:Eu.
      + assert (Hk' : queue_kept m m').
        { apply (MkzUpdate_kept m m' (rd j i0)); auto.
          rewrite Hl. apply Hr. lia. }
        assert (Ha0 : MkzIsAlive (MKZA mat) (rd j i0) <> 0).
        { rewrite <- Hal. unfold MkzUpdate in Eu. unfold MkzIsAlive.
          destruct (rd (MKZA m) (rd j i0) =? MKZ_INF); [discriminate|lia]. }
        rewrite (IH m' (i0 + 1)).
        * split; intros (i & Hi & Hd); exists i; split; auto; try lia.
          destruct (Z.eq_dec i i0) as [->|]; [contradiction|lia].
        * apply (queue_kept_trans mat m m'); auto.
          unfold queue_kept. auto 10.
        * intros i Hi. apply Hr. lia.
      + split; [intros _|reflexivity].
        exists i0. split; [lia|]. rewrite <- Hal.
        unfold MkzUpdate in Eu. unfold MkzIsAlive.
        destruct (rd (MKZA m) (rd j i0) =? MKZ_INF); [reflexivity|].
        destruct (MkzMoveUpOrDown _ _ _); discriminate. }
  rewrite (H (Z.to_nat n) mat 0).
  - split; intros (i & Hi & Hd); exists i; split; auto; lia.
  - now apply queue_kept_refl.
  - intros i Hi. apply Hj. lia.
Qed.

(** X11. The cost [MkzCount] hands to the queue is never negative and
    is below 2^31, whatever the policy; storing it in an [index_t]
    changes nothing. *)
Theorem X11_MkzCount_range (mat : filter_matrix_t) (j : Z) :
  0 <= MkzCount mat j < 2 ^ 31 /\ idx (MkzCount mat j) = MkzCount mat j.
Proof. split; [apply MkzCount_range|apply idx_MkzCount]. Qed.

(** X12. With [wmstmax <= 1] the light-column policy is the Pure
    Markowitz policy, as the comment above [lightColAndMkz] expects. *)
Theorem X12_lightColAndMkz_pure (mat : filter_matrix_t) :
  wmstmax mat <= 1 ->
  forall j, lightColAndMkz mat j = pureMkz mat j.
Proof.
  intros Hm j. unfold lightColAndMkz.
  destruct (Z.leb_spec (int_of (rd (wt mat) j)) 1) as [H1|H1].
  - symmetry. now apply pureMkz_low.
  - destruct (Z.leb_spec (int_of (rd (wt mat) j)) (wmstmax mat));
      [lia|reflexivity].
Qed.

(** ** Runs of operations *)

Section RunsKept.

Variable incrS : Z -> Z.
Variable decrS : Z -> Z.

Lemma apply_op_kept (mat m : filter_matrix_t) (op : queue_op) :
  queue_wf (MKZQ mat) -> bijection (MKZQ mat) (MKZA mat) ->
  op_ok (Zlen (MKZA mat)) op ->
  apply_op incrS decrS mat op = Done m ->
  queue_kept mat m.
Proof.
  intros Hwf Hb Hop E.
  destruct op as [j|js n|j|j]; cbn [apply_op op_ok] in *.
  - now apply (MkzUpdate_kept mat m j).
  - unfold MkzUpdateN in E.
    apply (MkzUpdateN_loop_kept js (Z.to_nat n) mat m 0); auto.
    intros i Hi. apply Hop. lia.
  - injection E as <-. unfold queue_kept. cbn. auto 10.
  - injection E as <-. unfold queue_kept. cbn. auto 10.
Qed.

Lemma run_states_kept (ops : list queue_op) :
  forall mat,
    queue_wf (MKZQ mat) -> bijection (MKZQ mat) (MKZA mat) ->
    Forall (op_ok (Zlen (MKZA mat))) ops ->
    Forall (queue_kept mat) (run_states incrS decrS mat ops).
Proof.
  induction ops as [|op rest IH]; intros mat Hwf Hb Hops; cbn [run_states].
  - constructor; [now apply queue_kept_refl|constructor].
  - constructor; [now apply queue_kept_refl|].
    inversion Hops as [|? ? Hop Hrest]; subst.
    destruct (apply_op incrS decrS mat op) as [m|] eqn:E; [|constructor].
    pose proof (apply_op_kept mat m op Hwf Hb Hop E) as Hk.
    destruct Hk as (Hl & Hal & Hn & Hwf' & Hb' & Hh').
    assert (Hk : queue_kept mat m) by (unfold queue_kept; auto 10).
    rewrite <- Hl in Hrest.
    apply (Forall_impl _ (fun m' H => queue_kept_trans mat m m' Hk H)).
    now apply IH.
Qed.

(** X9. No operation of a run adds or removes an entry: in every state
    a run reaches, [A] has its first length, [Q[0]] its first value, and
    [MkzIsAlive] answers for every column as it did at the start. *)
Theorem X9_run_alive (mat : filter_matrix_t) (ops : list queue_op) :
  queue_wf (MKZQ mat) -> bijection (MKZQ mat) (MKZA mat) ->
  Forall (op_ok (Zlen (MKZA mat))) ops ->
  Forall (fun m =>
            Zlen (MKZA m) = Zlen (MKZA mat) /\
            qn (MKZQ m) = qn (MKZQ mat) /\
            forall c, MkzIsAlive (MKZA m) c = MkzIsAlive (MKZA mat) c)
         (run_states incrS decrS mat ops).
Proof.
  intros Hwf Hb Hops.
  apply (Forall_impl _ (P := queue_kept mat)).
  - intros m (Hl & Hal & Hn & _). auto.
  - now apply run_states_kept.
Qed.

(** X10. Peek-minimum along a run: started from a heap, every state a
    run reaches is a heap, and the cost at its root is no greater than
    the cost the queue holds for any alive column. *)
Theorem X10_run_root_least (mat : filter_matrix_t) (ops : list queue_op) :
  queue_wf (MKZQ mat) -> is_heap (MKZQ mat) ->
  bijection (MKZQ mat) (MKZA mat) ->
  Forall (op_ok (Zlen (MKZA mat))) ops ->
  Forall (fun m =>
            is_heap (MKZQ m) /\
            forall c, 0 <= c < Zlen (MKZA m) -> MkzIsAlive (MKZA m) c <> 0 ->
                      root_cost m <= cost (MKZQ m) (rd (MKZA m) c))
         (run_states incrS decrS mat ops).
Proof.
  intros Hwf Hh Hb Hops. apply is_heap_heap_up in Hh.
  apply (Forall_impl _ (P := queue_kept mat)).
  - intros m (Hl & Hal & Hn & Hwf' & Hb' & Hh').
    specialize (Hh' Hh). split; [now apply is_heap_heap_up|].
    intros c Hc Ha. apply alive_iff in Ha.
    destruct (alive_slot _ _ c Hb' Hc Ha) as (Hs & _).
    unfold root_cost. now apply heap_root_least.
  - now apply run_states_kept.
Qed.

End RunsKept.

(** ** [MkzIsHeap] *)

Lemma MkzIsHeap_loop_spec (Q : list Z) (fuel : nat) :
  queue_wf Q ->
  forall k,
    1 <= k -> qn Q / 2 - k < Z.of_nat fuel ->
    (MkzIsHeap_loop fuel Q k = 1 <->
     forall i, k <= i <= qn Q / 2 ->
               cost Q i <= cost Q (2 * i) /\
               (i < qn Q / 2 -> cost Q i <= cost Q (2 * i + 1))) /\
    (MkzIsHeap_loop fuel Q k = 0 \/ MkzIsHeap_loop fuel Q k = 1).
Proof.
  intros Hwf. pose proof Hwf as (H0 & Hl & Hb).
  induction fuel as [|f IH]; intros k Hk Hf; cbn [MkzIsHeap_loop].
  - split; [|auto]. split; [|reflexivity]. intros _ i Hi. lia.
  - fold (qn Q).
    destruct (Z.leb_spec k (qn Q / 2)) as [Hle|Hgt].
    + assert (H2k : 2 * k <= qn Q) by dlia.
      rewrite (idx_small (2 * k)) by lia.
      fold (cost Q (2 * k)) (cost Q k).
      destruct (Z.ltb_spec (cost Q (2 * k)) (cost Q k)) as [Hc|Hc].
      { split; [|auto]. split; [discriminate|].
        intros H. destruct (H k ltac:(lia)). lia. }
      destruct (Z.ltb_spec k (qn Q / 2)) as [Hlt|Hge]; cbn [andb].
      * assert (H2k1 : 2 * k + 2 <= qn Q) by dlia.
        rewrite (idx_small (2 * k + 1)) by lia.
        fold (cost Q (2 * k + 1)).
        destruct (Z.ltb_spec (cost Q (2 * k + 1)) (cost Q k)) as [Hr|Hr].
        { split; [|auto]. split; [discriminate|].
          intros H. destruct (H k ltac:(lia)) as (_ & H'). lia. }
        rewrite (idx_small (k + 1)) by lia.
        destruct (IH (k + 1) ltac:(lia) ltac:(lia)) as (Hiff & Hbool).
        split; [|exact Hbool]. rewrite Hiff. split.
        -- intros H i Hi. destruct (Z.eq_dec i k) as [->|Hne]; [auto|].
           apply H. lia.
        -- intros H i Hi. apply H. lia.
      * rewrite (idx_small (k + 1)) by lia.
        destruct (IH (k + 1) ltac:(lia) ltac:(lia)) as (Hiff & Hbool).
        split; [|exact Hbool]. rewrite Hiff. split.
        -- intros H i Hi. destruct (Z.eq_dec i k) as [->|Hne].
           ++ split; [auto|lia].
           ++ apply H. lia.
        -- intros H i Hi. apply H. lia.
    + split; [|auto]. split; [|reflexivity]. intros _ i Hi. lia.
Qed.

(** More turns than [Q[0]/2 + 1] change nothing in the loop of
    [MkzIsHeap]. *)
Lemma MkzIsHeap_loop_fuel (Q : list Z) (fuel : nat) :
  queue_wf Q ->
  forall k (extra : nat),
    1 <= k -> qn Q / 2 - k < Z.of_nat fuel ->
    MkzIsHeap_loop (fuel + extra) Q k = MkzIsHeap_loop fuel Q k.
Proof.
  intros Hwf. pose proof Hwf as (H0 & Hl & Hb).
  induction fuel as [|f IH]; intros k extra Hk Hf.
  - destruct extra as [|e]; [reflexivity|]. cbn [Nat.add MkzIsHeap_loop].
    fold (qn Q). destruct (Z.leb_spec k (qn Q / 2)); [lia|reflexivity].
  - cbn [Nat.add MkzIsHeap_loop]. fold (qn Q).
    destruct (Z.leb_spec k (qn Q / 2)) as [Hle|Hgt]; [|reflexivity].
    destruct (_ <? _); [reflexivity|].
    destruct (_ && _); [reflexivity|].
    assert (2 * k <= qn Q) by dlia.
    rewrite (idx_small (k + 1)) by lia. apply IH; lia.
Qed.

(** X13. What [MkzIsHeap] checks.  It answers 0 or 1; it answers 1
    exactly when every slot but the root is no cheaper than its father,
    the last slot [Q[0]] excepted when [Q[0]] is odd: the right son of
    [Q[0]/2] is then never looked at.  Hence it accepts every heap, and
    when [Q[0]] is even what it accepts is a heap. *)
Theorem X13_MkzIsHeap_checks (Q : list Z) :
  queue_wf Q ->
  (MkzIsHeap Q = 1 <->
   forall i, 2 <= i <= qn Q -> ~ (i = qn Q /\ Z.odd (qn Q) = true) ->
             cost Q (i / 2) <= cost Q i) /\
  (MkzIsHeap Q = 0 \/ MkzIsHeap Q = 1) /\
  (is_heap Q -> MkzIsHeap Q = 1) /\
  (Z.even (qn Q) = true -> MkzIsHeap Q = 1 -> is_heap Q).
Proof.
  intros Hwf. pose proof Hwf as (H0 & _).
  unfold MkzIsHeap. fold (qn Q).
  destruct (MkzIsHeap_loop_spec Q (S (Z.to_nat (qn Q / 2))) Hwf 1
              ltac:(lia) ltac:(dlia)) as (Hiff & Hbool).
  assert (Hchar : MkzIsHeap_loop (S (Z.to_nat (qn Q / 2))) Q 1 = 1 <->
                  forall i, 2 <= i <= qn Q ->
                            ~ (i = qn Q /\ Z.odd (qn Q) = true) ->
                            cost Q (i / 2) <= cost Q i).
  { rewrite Hiff. split.
    - intros H i Hi Hlast.
      destruct (half_spec i ltac:(lia)) as (Hp & Hcase).
      destruct (H (i / 2) ltac:(dlia)) as (Hleft & Hright).
      destruct Hcase as [Hc|Hc].
      + rewrite Hc at 2. exact Hleft.
      + rewrite Hc at 2. apply Hright.
        destruct (Z.eq_dec i (qn Q)) as [En|En]; [|dlia].
        exfalso. apply Hlast. split; [exact En|].
        apply Z.odd_spec. exists (i / 2). lia.
    - intros H i Hi. split.
      + specialize (H (2 * i) ltac:(dlia)).
        replace (2 * i / 2) with i in H by dlia. apply H.
        intros (En & Ho). apply Z.odd_spec in Ho. destruct Ho as (m & Hm). lia.
      + intros Hlt. specialize (H (2 * i + 1) ltac:(dlia)).
        replace ((2 * i + 1) / 2) with i in H by dlia. apply H.
        intros (En & _). dlia. }
  split; [exact Hchar|]. split; [exact Hbool|]. split.
  - intros Hh. apply is_heap_heap_up in Hh. apply Hchar.
    intros i Hi _. now apply Hh.
  - intros He H1. apply is_heap_heap_up. intros i Hi.
    apply Hchar; auto. intros (_ & Ho).
    rewrite <- Z.negb_even, He in Ho. discriminate.
Qed.

(** ** [MkzPrintQueue] *)

Lemma MkzPrintQueue_loop_spec (Q : list Z) (fuel : nat) :
  queue_wf Q ->
  forall i level,
    0 <= level -> 2 ^ level <= i <= 2 ^ (level + 1) - 1 ->
    qn Q - i < Z.of_nat fuel ->
    MkzPrintQueue_loop fuel Q i (2 ^ (level + 1) - 1) level
    = flat_map (slot_output Q) (Zseq i (Z.to_nat (qn Q + 1 - i))).
Proof.
  intros Hwf. pose proof Hwf as (H0 & Hl & Hb).
  induction fuel as [|f IH]; intros i level Hlev Hi Hf;
    cbn [MkzPrintQueue_loop].
  - replace (Z.to_nat (qn Q + 1 - i)) with O by lia. reflexivity.
  - assert (Hp : 0 < 2 ^ level) by (apply Z.pow_pos_nonneg; lia).
    assert (Hs : 2 ^ (level + 1) = 2 * 2 ^ level).
    { rewrite Z.pow_add_r by lia. lia. }
    assert (Hs2 : 2 ^ (level + 1 + 1) = 2 * 2 ^ (level + 1)).
    { rewrite (Z.pow_add_r 2 (level + 1) 1) by lia. lia. }
    fold (qn Q). destruct (Z.leb_spec i (qn Q)) as [Hle|Hgt].
    + replace (Z.to_nat (qn Q + 1 - i))
        with (S (Z.to_nat (qn Q + 1 - (i + 1)))) by lia.
      cbn [Zseq flat_map]. unfold slot_output at 1.
      fold (cost Q i) (col Q i). cbn [app]. f_equal.
      rewrite (idx_small (i + 1)) by lia.
      destruct (Z.eqb_spec i (2 ^ (level + 1) - 1)) as [E|E].
      * assert (Hlog : Z.log2 (i + 1) = level + 1).
        { replace (i + 1) with (2 ^ (level + 1)) by lia.
          apply Z.log2_pow2. lia. }
        rewrite Hlog.
        destruct (Z.eqb_spec (i + 1) (2 ^ (level + 1))); [|lia].
        cbn [app]. do 2 f_equal.
        rewrite flat_index by lia.
        replace (2 * (2 ^ (level + 1) - 1) + 1)
          with (2 ^ (level + 1 + 1) - 1) by lia.
        apply IH; lia.
      * assert (Hlog : Z.log2 (i + 1) = level).
        { apply Z.log2_unique; lia. }
        rewrite Hlog. destruct (Z.eqb_spec (i + 1) (2 ^ level)); [lia|].
        cbn [app]. apply IH; lia.
    + replace (Z.to_nat (qn Q + 1 - i)) with O by lia. reflexivity.
Qed.

(** X14. What [MkzPrintQueue] prints: the label of level 0, then for
    every live slot in turn its cost and its column, with a line break
    and the label of the next level after slots 1, 3, 7, ... (the slots
    [i] with [i + 1] a power of two), then a line break.  Every live
    slot is printed once, slot [i] on level [log2 i]; when [Q[0] + 1] is
    a power of two the output ends with the label of a level that has no
    entry. *)
Theorem X14_MkzPrintQueue_levels (Q : list Z) :
  queue_wf Q ->
  MkzPrintQueue Q =
  OutLevel 0 ::
  flat_map (slot_output Q) (Zseq 1 (Z.to_nat (qn Q))) ++ [OutNewline].
Proof.
  intros Hwf. pose proof Hwf as (H0 & _). unfold MkzPrintQueue.
  fold (qn Q). do 2 f_equal.
  change 1 with (2 ^ (0 + 1) - 1) at 2.
  rewrite MkzPrintQueue_loop_spec; auto; try (cbn; lia).
  do 2 f_equal. lia.
Qed.
End Markowitz.

(** ** The statements on sample data *)

Ltac sample_check :=
  first [apply queue_wfb_sound | apply is_heapb_sound | apply bijectionb_sound
        | apply is_min_row_lengthb_sound];
  vm_compute; reflexivity.

Ltac zdecide := vm_compute; repeat split; first [reflexivity | discriminate].

(** Scenario 6 of the specification: the root holds column 0 at first
    and column 1, at cost 1, once the weight of column 0 has grown to 4
    and its cost has been updated. *)
Example scenario6_root :
  let states :=
    run_states 32 sample_INF sample_weightSum sample_minCostUsingMST
               sample_incrS sample_decrS
               (sample_matrix MKZTYPE_CAVALLAR 0) sample_run in
  let final := last states (sample_matrix MKZTYPE_CAVALLAR 0) in
  col 32 (MKZQ (sample_matrix MKZTYPE_CAVALLAR 0)) 1 = 0 /\
  col 32 (MKZQ final) 1 = 1 /\ root_cost 32 final = 1 /\
  MKZQ final = [5; 0; 1; 1; 3; 3; 2; 2; 0; 4; 4; 5] /\
  MKZA final = [4; 1; 3; 2; 5].
Proof. vm_compute. repeat split; reflexivity. Qed.

(** Inside a sift the bijection is broken: after the first [MkzAssign] of
    the update above, slots 1 and 2 both hold column 1 and [A] sends it
    to slot 1. *)
Example bijection_broken_inside_sift :
  let Q := MkzSet 32 (MKZQ (sample_matrix MKZTYPE_CAVALLAR 4)) 1 1 4 in
  let A := MKZA (sample_matrix MKZTYPE_CAVALLAR 4) in
  let QA := MkzAssign 32 Q A 1 2 in
  col 32 (fst QA) 2 = 1 /\ rd (snd QA) (col 32 (fst QA) 2) = 1.
Proof. vm_compute. split; reflexivity. Qed.

(** The costs of the five columns of the sample under the three
    policies, before and after the clamp of [MkzCount]. *)
Example sample_costs :
  map (Cavallar (sample_matrix MKZTYPE_CAVALLAR 0)) [0; 1; 2; 3; 4]
  = [0; 1; 2; 3; 5] /\
  map (pureMkz 32 (sample_matrix MKZTYPE_PURE 0)) [0; 1; 2; 3; 4]
  = [-4; -4; -2; -2; -5] /\
  map (lightColAndMkz 32 sample_weightSum sample_minCostUsingMST
         (sample_matrix MKZTYPE_LIGHT 0)) [0; 1; 2; 3; 4]
  = [-4; -4; -2; 0; 0] /\
  map (MkzCount 32 sample_weightSum sample_minCostUsingMST
         (sample_matrix MKZTYPE_PURE 0)) [0; 1; 2; 3; 4]
  = [0; 0; 0; 0; 0].
Proof. vm_compute. repeat split; reflexivity. Qed.

Lemma sample_minCostUsingMST_int :
  forall mat m ind j, int_range (sample_minCostUsingMST mat m ind j).
Proof. intros. unfold sample_minCostUsingMST, int_range. lia. Defined.

(** [C1_pureMkz_cost] on column 4 of the sample (weight 5, lightest row
    of length 1): the cost is (1 - 2) * (5 - 2) - 2 = -5. *)
Lemma C1_witness :
  rd (rdl (R (sample_matrix MKZTYPE_PURE 0)) 4) 0
  = int_of (rd (wt (sample_matrix MKZTYPE_PURE 0)) 4) /\
  is_min_row_length 32 (sample_matrix MKZTYPE_PURE 0) 4 1 /\
  pureMkz 32 (sample_matrix MKZTYPE_PURE 0) 4 = (1 - 2) * (5 - 2) - 2.
Proof.
  assert (Hmin : is_min_row_length 32 (sample_matrix MKZTYPE_PURE 0) 4 1)
    by sample_check.
  split; [reflexivity|]. split; [exact Hmin|].
  destruct (C1_pureMkz_cost 32 ltac:(lia) (sample_matrix MKZTYPE_PURE 0) 4
              eq_refl) as (_ & _ & H).
  destruct (H ltac:(zdecide)) as (_ & Hall).
  destruct (Hall 1 Hmin) as (_ & Hexact).
  apply Hexact. zdecide.
Defined.

(** C1 without the reduction to [int] fails on [long_rows_matrix]: the
    column has weight 3, its three rows have length 2^31 + 4, and
    [pureMkz] returns -2^31 where (w0 - 2) * (w - 2) - 2 is 2^31. *)
Lemma C1_counterexample :
  rd (rdl (R long_rows_matrix) 0) 0 = int_of (rd (wt long_rows_matrix) 0) /\
  int_of (rd (wt long_rows_matrix) 0) = 3 /\
  is_min_row_length 32 long_rows_matrix 0 2147483652 /\
  pureMkz 32 long_rows_matrix 0 = -2147483648 /\
  pureMkz 32 long_rows_matrix 0 <> (2147483652 - 2) * (3 - 2) - 2.
Proof.
  split; [reflexivity|]. split; [reflexivity|]. split.
  - sample_check.
  - split; [vm_compute; reflexivity|vm_compute; discriminate].
Qed.

(** [C2_MkzUpdate_restores_heap] on the sample once the weight of column
    0 has grown from 0 to 4: the column leaves the root. *)
Lemma C2_witness :
  exists Q' A',
    MkzUpdate 32 sample_INF sample_weightSum sample_minCostUsingMST
              (sample_matrix MKZTYPE_CAVALLAR 4) 0
    = Done (set_queue (sample_matrix MKZTYPE_CAVALLAR 4) Q' A') /\
    1 <= rd A' 0 <= qn Q' /\
    is_heap 32 Q' /\ bijection 32 sample_INF Q' A'.
Proof.
  destruct (C2_MkzUpdate_restores_heap 32 sample_INF ltac:(lia)
              sample_weightSum sample_minCostUsingMST
              sample_minCostUsingMST_int
              (sample_matrix MKZTYPE_CAVALLAR 4) 0)
    as (Q' & A' & E & _ & Hdir & _ & _ & _ & Hh & Hb);
    try sample_check.
  - zdecide.
  - zdecide.
  - exists Q', A'. split; [exact E|]. split; [|split; assumption].
    exact Hdir.
Defined.

(** [C3_bijection_preserved] along the run of scenario 6. *)
Lemma C3_witness :
  Forall (fun m => bijection 32 sample_INF (MKZQ m) (MKZA m))
         (run_states 32 sample_INF sample_weightSum sample_minCostUsingMST
                     sample_incrS sample_decrS
                     (sample_matrix MKZTYPE_CAVALLAR 0) sample_run).
Proof.
  apply (C3_bijection_preserved 32 sample_INF ltac:(lia)
           sample_weightSum sample_minCostUsingMST
           sample_minCostUsingMST_int sample_incrS sample_decrS);
    try sample_check.
  repeat constructor; zdecide.
Defined.

(** [C4_lightColAndMkz_cost] on column 2 of the sample (weight 2, rows
    of lengths 4 and 3 that share column 2 only). *)
Lemma C4_witness :
  lightColAndMkz 32 sample_weightSum sample_minCostUsingMST
                 (sample_matrix MKZTYPE_LIGHT 0) 2
  = (4 + 3 - 2) - 4 - 3.
Proof.
  destruct (C4_lightColAndMkz_cost 32 ltac:(lia) sample_weightSum
              sample_minCostUsingMST (sample_matrix MKZTYPE_LIGHT 0) 2)
    as (_ & _ & H & _).
  destruct (H eq_refl ltac:(zdecide)) as (_ & Hexact).
  apply Hexact. zdecide.
Defined.

(** C4 without the reduction to [int] fails on [twin_rows_matrix]: the
    column has weight 2, its two rows have 2^31 entries each and cancel
    entirely, and [lightColAndMkz] returns 0 where the weight of the sum
    minus the two lengths is -2^32. *)
Lemma C4_counterexample :
  int_of (rd (wt twin_rows_matrix) 0) = 2 /\
  2 <= wmstmax twin_rows_matrix /\
  lightColAndMkz 32 equal_rows_weightSum sample_minCostUsingMST
                 twin_rows_matrix 0 = 0 /\
  lightColAndMkz 32 equal_rows_weightSum sample_minCostUsingMST
                 twin_rows_matrix 0
  <> equal_rows_weightSum twin_rows_matrix 0 1 0
     - matLengthRow 32 twin_rows_matrix 0
     - matLengthRow 32 twin_rows_matrix 1.
Proof.
  split; [reflexivity|]. split; [zdecide|].
  split; [vm_compute; reflexivity|vm_compute; discriminate].
Qed.

(** On the run of scenario 6 the costs seen at the root are 0, then 1
    once column 0 has been updated, and [MkzClear] prints 5, the cost of
    the last slot. *)
Example scenario6_MkzClear :
  let states :=
    run_states 32 sample_INF sample_weightSum sample_minCostUsingMST
               sample_incrS sample_decrS
               (sample_matrix MKZTYPE_CAVALLAR 0) sample_run in
  let final := last states (sample_matrix MKZTYPE_CAVALLAR 0) in
  map (root_cost 32) states = [0; 0; 0; 0; 0; 1] /\
  max_root_cost 32 states = 1 /\
  MkzClear 32 final 1 = Some 5 /\
  MkzClear 32 final 1 <> Some (max_root_cost 32 states).
Proof.
  cbv zeta. split; [vm_compute; reflexivity|].
  split; [vm_compute; reflexivity|].
  split; [vm_compute; reflexivity|vm_compute; discriminate].
Qed.

(** C5. [MkzClear] prints, under the label "Max Markowitz count", the
    cost cell of the last live slot, which misses the maximum.  On
    [dear_left_son_matrix], a well-formed heap in bijection with [A]
    whose stored costs are the ones [MkzCount] gives, the slots hold the
    costs 0, 5 and 1.  Along the run that recomputes every cost the queue
    never changes and the root only ever shows cost 0.  [MkzClear] with
    [verbose] set then prints 1: neither the largest cost seen at the
    root (0) nor the largest cost of the queue (5). *)
Theorem C5_MkzClear_misses_maximum :
  let mat := dear_left_son_matrix in
  let Q := MKZQ mat in
  let states :=
    run_states 32 sample_INF sample_weightSum sample_minCostUsingMST
               sample_incrS sample_decrS mat recount_run in
  let final := last states mat in
  (queue_wf 32 Q /\ is_heap 32 Q /\ bijection 32 sample_INF Q (MKZA mat)) /\
  map (cost 32 Q) [1; 2; 3] = [0; 5; 1] /\
  map (fun k => MkzCount 32 sample_weightSum sample_minCostUsingMST mat
                            (col 32 Q k)) [1; 2; 3] = [0; 5; 1] /\
  states = [mat; mat; mat; mat] /\
  map (root_cost 32) states = [0; 0; 0; 0] /\
  max_root_cost 32 states = 0 /\
  MkzClear 32 final 1 = Some 1 /\
  MkzClear 32 final 1 <> Some (max_root_cost 32 states) /\
  MkzClear 32 final 1 <> Some (fold_right Z.max 0 (map (cost 32 Q) [1; 2; 3])).
Proof.
  cbv zeta.
  split; [split; [sample_check|split; sample_check]|].
  split; [vm_compute; reflexivity|].
  split; [vm_compute; reflexivity|].
  split; [vm_compute; reflexivity|].
  split; [vm_compute; reflexivity|].
  split; [vm_compute; reflexivity|].
  split; [vm_compute; reflexivity|].
  split; vm_compute; discriminate.
Qed.

Lemma sample_weightSum_queue :
  forall mat Q A i1 i2 j,
    sample_weightSum (set_queue mat Q A) i1 i2 j = sample_weightSum mat i1 i2 j.
Proof. intros. reflexivity. Defined.

Lemma sample_minCostUsingMST_queue :
  forall mat Q A m ind j,
    sample_minCostUsingMST (set_queue mat Q A) m ind j
    = sample_minCostUsingMST mat m ind j.
Proof. intros. reflexivity. Defined.

(** [C6_MkzUpdate_idempotent] on column 4 of the sample under the
    light-column policy: its cost falls from 5 to 0 and it moves up. *)
Lemma C6_witness :
  exists mat1,
    MkzUpdate 32 sample_INF sample_weightSum sample_minCostUsingMST
              (sample_matrix MKZTYPE_LIGHT 0) 4 = Done mat1 /\
    MkzUpdate 32 sample_INF sample_weightSum sample_minCostUsingMST
              mat1 4 = Done mat1.
Proof.
  apply (C6_MkzUpdate_idempotent 32 sample_INF ltac:(lia)
           sample_weightSum sample_minCostUsingMST
           sample_minCostUsingMST_int sample_weightSum_queue
           sample_minCostUsingMST_queue);
    try sample_check.
  - zdecide.
  - zdecide.
Defined.

(** [C7_MkzUpdateN_two_phase] on the sample after the weights of columns
    0, 4 and 3 have changed to 6, 0 and 0. *)
Lemma C7_witness :
  MkzUpdateN 32 sample_INF sample_weightSum sample_minCostUsingMST
             (set_wt (sample_matrix MKZTYPE_CAVALLAR 0) [6; 1; 2; 0; 0])
             [0; 4; 3] 3
  = Done (MkzUpdateN_two_phase 32 sample_weightSum sample_minCostUsingMST
            (set_wt (sample_matrix MKZTYPE_CAVALLAR 0) [6; 1; 2; 0; 0])
            [0; 4; 3] 3).
Proof.
  apply (C7_MkzUpdateN_two_phase 32 sample_INF ltac:(lia)
           sample_weightSum sample_minCostUsingMST
           sample_minCostUsingMST_int sample_weightSum_queue
           sample_minCostUsingMST_queue);
    try sample_check.
  intros i Hi.
  assert (i = 0 \/ i = 1 \/ i = 2) as [->|[->| ->]] by lia;
    (split; zdecide).
Defined.

(** [C8_pure_costs_at_low_weight] on the sample: columns 0 and 1 (weights
    0 and 1), column 2 (weight 2) and column 3 (weight 3, lightest row of
    length 2). *)
Lemma C8_witness :
  mkztype (sample_matrix MKZTYPE_PURE 0) = MKZTYPE_PURE /\
  pureMkz 32 (sample_matrix MKZTYPE_PURE 0) 1 = -4 /\
  pureMkz 32 (sample_matrix MKZTYPE_PURE 0) 2 = -2 /\
  pureMkz 32 (sample_matrix MKZTYPE_PURE 0) 3 = -2 /\
  MkzCount 32 sample_weightSum sample_minCostUsingMST
           (sample_matrix MKZTYPE_PURE 0) 3
  = MkzCount 32 sample_weightSum sample_minCostUsingMST
             (sample_matrix MKZTYPE_PURE 0) 2.
Proof.
  assert (Hmin : is_min_row_length 32 (sample_matrix MKZTYPE_PURE 0) 3 2)
    by sample_check.
  destruct (C8_pure_costs_at_low_weight 32 ltac:(lia) sample_weightSum
              sample_minCostUsingMST (sample_matrix MKZTYPE_PURE 0) eq_refl)
    as (H01 & H2 & H3 & Htie).
  split; [reflexivity|].
  split; [apply (H01 1); right; reflexivity|].
  split; [apply (H2 2); reflexivity|].
  split; [apply (H3 3); [reflexivity|reflexivity|exact Hmin]|].
  apply (Htie 2 3); [reflexivity|reflexivity|reflexivity|exact Hmin].
Defined.

(** [C9_MkzUpdate_dead_column] on the sample with column 4 marked dead
    and four live slots left. *)
Lemma C9_witness :
  let mat := set_queue (sample_matrix MKZTYPE_CAVALLAR 0)
                       [4; 0; 0; 0; 1; 1; 2; 2; 3; 3; 4; 5]
                       [1; 2; 3; 4; sample_INF] in
  MkzUpdate 32 sample_INF sample_weightSum sample_minCostUsingMST mat 4
  = AssertionFailure /\
  exists mat',
    MkzUpdate 32 sample_INF sample_weightSum sample_minCostUsingMST mat 0
    = Done mat'.
Proof.
  intros mat. split.
  - apply (C9_MkzUpdate_dead_column 32 sample_INF sample_weightSum
             sample_minCostUsingMST mat 4). reflexivity.
  - apply (C9_MkzUpdate_dead_column 32 sample_INF sample_weightSum
             sample_minCostUsingMST mat 0). zdecide.
Defined.

(** [C10_MkzUpdate_frame] on the sample once the weight of column 0 has
    grown from 0 to 4. *)
Lemma C10_witness :
  exists mat',
    MkzUpdate 32 sample_INF sample_weightSum sample_minCostUsingMST
              (sample_matrix MKZTYPE_CAVALLAR 4) 0 = Done mat' /\
    wt mat' = wt (sample_matrix MKZTYPE_CAVALLAR 4) /\
    qn (MKZQ mat') = 5 /\
    Permutation (columns 32 (MKZQ mat')) [0; 1; 2; 3; 4] /\
    cost 32 (MKZQ mat') (rd (MKZA mat') 0) = 4.
Proof.
  destruct (C10_MkzUpdate_frame 32 sample_INF ltac:(lia)
              sample_weightSum sample_minCostUsingMST
              sample_minCostUsingMST_int
              (sample_matrix MKZTYPE_CAVALLAR 4) 0)
    as (mat' & E & Hw & _ & _ & _ & _ & _ & Hn & _ & _ & Hperm & Hc & _);
    try sample_check.
  - zdecide.
  - zdecide.
  - exists mat'. split; [exact E|]. split; [exact Hw|].
    split; [exact Hn|]. split; [exact Hperm|exact Hc].
Defined.

(** ** The further properties on sample data *)

(** [MkzIsHeap] misses the edge to the last slot of a queue of odd size:
    it accepts [odd_queue], whose slot 3 is cheaper than the root. *)
Example MkzIsHeap_accepts_odd_queue :
  MkzIsHeap 32 odd_queue = 1 /\
  cost 32 odd_queue 3 < cost 32 odd_queue (3 / 2).
Proof. vm_compute. split; reflexivity. Qed.

(** [X1_MkzUpQueue_decrease_key] on the sample: the cost of slot 5 falls
    from 5 to 0 and column 4 reaches the root. *)
Lemma X1_witness :
  let Q := MKZQ (sample_matrix MKZTYPE_CAVALLAR 0) in
  let A := MKZA (sample_matrix MKZTYPE_CAVALLAR 0) in
  let r := MkzUpQueue 32 (MkzSet 32 Q 5 1 0) A 5 in
  0 <= cost 32 Q 5 /\
  is_heap 32 (fst r) /\ bijection 32 sample_INF (fst r) (snd r) /\
  cost 32 (fst r) (rd (snd r) 4) = 0.
Proof.
  intros Q A r.
  assert (Hwf : queue_wf 32 Q) by sample_check.
  assert (Hheap : is_heap 32 Q) by sample_check.
  assert (Hbij : bijection 32 sample_INF Q A) by sample_check.
  assert (Hk : 1 <= 5 <= qn Q) by zdecide.
  assert (Hle : 0 <= cost 32 Q 5) by zdecide.
  destruct (X1_MkzUpQueue_decrease_key 32 sample_INF ltac:(lia) Q A 5 0
              Hwf Hheap Hbij Hk Hle) as (_ & Hh & Hb & _ & _ & Hc).
  split; [exact Hle|]. split; [exact Hh|]. split; [exact Hb|exact Hc].
Defined.

(** [X2_MkzDownQueue_increase_key] on the sample: the cost of the root
    rises from 0 to 4 and column 0 goes down to slot 4. *)
Lemma X2_witness :
  let Q := MKZQ (sample_matrix MKZTYPE_CAVALLAR 0) in
  let A := MKZA (sample_matrix MKZTYPE_CAVALLAR 0) in
  let r := MkzDownQueue 32 (MkzSet 32 Q 1 1 4) A 1 in
  cost 32 Q 1 <= 4 /\
  is_heap 32 (fst r) /\ bijection 32 sample_INF (fst r) (snd r) /\
  cost 32 (fst r) (rd (snd r) 0) = 4.
Proof.
  intros Q A r.
  assert (Hwf : queue_wf 32 Q) by sample_check.
  assert (Hheap : is_heap 32 Q) by sample_check.
  assert (Hbij : bijection 32 sample_INF Q A) by sample_check.
  assert (Hk : 1 <= 1 <= qn Q) by zdecide.
  assert (Hle : cost 32 Q 1 <= 4) by zdecide.
  destruct (X2_MkzDownQueue_increase_key 32 sample_INF ltac:(lia) Q A 1 4
              Hwf Hheap Hbij Hk Hle) as (_ & Hh & Hb & _ & _ & Hc).
  split; [exact Hle|]. split; [exact Hh|]. split; [exact Hb|exact Hc].
Defined.

(** [X3_sift_path] on the sample with the cost of the root raised to 4:
    the column ends on a descendant of slot 1 and slot 3, off the path,
    keeps its entry. *)
Lemma X3_witness :
  let Q := MkzSet 32 (MKZQ (sample_matrix MKZTYPE_CAVALLAR 0)) 1 1 4 in
  let A := MKZA (sample_matrix MKZTYPE_CAVALLAR 0) in
  ancestor (rd (snd (MkzUpQueue 32 Q A 1)) (col 32 Q 1)) 1 /\
  ancestor 1 (rd (snd (MkzDownQueue 32 Q A 1)) (col 32 Q 1)).
Proof.
  intros Q A.
  assert (Hwf : queue_wf 32 Q) by sample_check.
  assert (Hbij : bijection 32 sample_INF Q A) by sample_check.
  assert (Hk : 1 <= 1 <= qn Q) by zdecide.
  destruct (X3_sift_path 32 sample_INF ltac:(lia) Q A 1 Hwf Hbij Hk)
    as ((Hu & _) & (Hd & _)).
  split; [exact Hu|exact Hd].
Defined.

(** [X4_MkzUpQueue_ties] on the sample with the cost of slot 5 lowered to
    1, the cost of its father: the father, column 1, comes down to
    slot 5. *)
Lemma X4_witness :
  let Q := MkzSet 32 (MKZQ (sample_matrix MKZTYPE_CAVALLAR 0)) 5 1 1 in
  let A := MKZA (sample_matrix MKZTYPE_CAVALLAR 0) in
  cost 32 Q 5 <= cost 32 Q (5 / 2) /\
  col 32 (fst (MkzUpQueue 32 Q A 5)) 5 = col 32 Q (5 / 2) /\
  1 <= rd (snd (MkzUpQueue 32 Q A 5)) (col 32 Q 5) <= 5 / 2.
Proof.
  intros Q A.
  assert (Hwf : queue_wf 32 Q) by sample_check.
  assert (Hbij : bijection 32 sample_INF Q A) by sample_check.
  assert (Hk : 1 <= 5 <= qn Q) by zdecide.
  assert (Hle : cost 32 Q 5 <= cost 32 Q (5 / 2)) by zdecide.
  destruct (X4_MkzUpQueue_ties 32 sample_INF ltac:(lia) Q A 5 Hwf Hbij Hk)
    as (_ & H).
  destruct (H ltac:(lia) Hle) as (Hc & _ & Hp).
  split; [exact Hle|]. split; [exact Hc|exact Hp].
Defined.

(** [X5_MkzDownQueue_sons] on the sample with the cost of the root raised
    to 4: the left son, column 1, comes up to the root. *)
Lemma X5_witness :
  let Q := MkzSet 32 (MKZQ (sample_matrix MKZTYPE_CAVALLAR 0)) 1 1 4 in
  let A := MKZA (sample_matrix MKZTYPE_CAVALLAR 0) in
  cheaper_son 32 Q 1 = 2 /\
  col 32 (fst (MkzDownQueue 32 Q A 1)) 1 = col 32 Q 2 /\
  2 <= rd (snd (MkzDownQueue 32 Q A 1)) (col 32 Q 1).
Proof.
  intros Q A.
  assert (Hwf : queue_wf 32 Q) by sample_check.
  assert (Hbij : bijection 32 sample_INF Q A) by sample_check.
  assert (Hk : 1 <= 1 <= qn Q) by zdecide.
  assert (Hn : 2 * 1 <= qn Q) by zdecide.
  assert (Hlt : cost 32 Q (cheaper_son 32 Q 1) < cost 32 Q 1) by zdecide.
  assert (Hs : cheaper_son 32 Q 1 = 2) by (vm_compute; reflexivity).
  destruct (X5_MkzDownQueue_sons 32 sample_INF ltac:(lia) Q A 1 Hwf Hbij Hk)
    as (_ & H).
  destruct (H Hn Hlt) as (Hc & _ & Hp & _).
  rewrite Hs in Hc, Hp.
  split; [exact Hs|]. split; [exact Hc|exact Hp].
Defined.

(** [X6_MkzUpdate_same_cost] on column 2 of the sample, whose weight and
    cost are both 2. *)
Lemma X6_witness :
  MkzUpdate 32 sample_INF sample_weightSum sample_minCostUsingMST
            (sample_matrix MKZTYPE_CAVALLAR 0) 2
  = Done (sample_matrix MKZTYPE_CAVALLAR 0).
Proof.
  apply (X6_MkzUpdate_same_cost 32 sample_INF ltac:(lia) sample_weightSum
           sample_minCostUsingMST sample_minCostUsingMST_int
           (sample_matrix MKZTYPE_CAVALLAR 0) 2
           ltac:(sample_check) ltac:(sample_check) ltac:(sample_check)
           ltac:(zdecide) ltac:(zdecide) ltac:(zdecide)).
Defined.

(** [X7_MkzUpdate_direction] on the sample once the weight of column 0
    has grown from 0 to 4. *)
Lemma X7_witness :
  exists mat',
    MkzUpdate 32 sample_INF sample_weightSum sample_minCostUsingMST
              (sample_matrix MKZTYPE_CAVALLAR 4) 0 = Done mat' /\
    rd (MKZA (sample_matrix MKZTYPE_CAVALLAR 4)) 0 <= rd (MKZA mat') 0.
Proof.
  destruct (X7_MkzUpdate_direction 32 sample_INF ltac:(lia) sample_weightSum
              sample_minCostUsingMST sample_minCostUsingMST_int
              (sample_matrix MKZTYPE_CAVALLAR 4) 0
              ltac:(sample_check) ltac:(sample_check) ltac:(sample_check)
              ltac:(zdecide) ltac:(zdecide))
    as (mat' & E & _ & Hup).
  exists mat'. split; [exact E|]. apply Hup. zdecide.
Defined.

(** [X8_MkzUpdateN_failure] on the sample with column 4 dead: the batch
    of columns 0, 4, 1 stops at the assertion. *)
Lemma X8_witness :
  MkzUpdateN 32 sample_INF sample_weightSum sample_minCostUsingMST
             dead_column_matrix [0; 4; 1] 3 = AssertionFailure.
Proof.
  assert (Hr : forall i, 0 <= i < 3 ->
                 0 <= rd [0; 4; 1] i < Zlen (MKZA dead_column_matrix)).
  { intros i Hi.
    assert (i = 0 \/ i = 1 \/ i = 2) as [->|[->| ->]] by lia; zdecide. }
  assert (Hb : bijection 32 sample_INF (MKZQ dead_column_matrix)
                         (MKZA dead_column_matrix)).
  { apply bijectionb_sound. lazy. reflexivity. }
  destruct (X8_MkzUpdateN_failure 32 sample_INF ltac:(lia) sample_weightSum
              sample_minCostUsingMST sample_minCostUsingMST_int
              dead_column_matrix [0; 4; 1] 3
              ltac:(sample_check) Hb Hr) as (_ & H).
  apply H. exists 1. split; [lia|reflexivity].
Defined.

(** [X9_run_alive] along the run of scenario 6. *)
Lemma X9_witness :
  Forall (fun m =>
            Zlen (MKZA m) = 5 /\ qn (MKZQ m) = 5 /\
            forall c, MkzIsAlive sample_INF (MKZA m) c
                      = MkzIsAlive sample_INF [1; 2; 3; 4; 5] c)
         (run_states 32 sample_INF sample_weightSum sample_minCostUsingMST
                     sample_incrS sample_decrS
                     (sample_matrix MKZTYPE_CAVALLAR 0) sample_run).
Proof.
  apply (X9_run_alive 32 sample_INF ltac:(lia) sample_weightSum
           sample_minCostUsingMST sample_minCostUsingMST_int
           sample_incrS sample_decrS (sample_matrix MKZTYPE_CAVALLAR 0));
    try sample_check.
  repeat constructor; zdecide.
Defined.

(** [X10_run_root_least] along the run of scenario 6. *)
Lemma X10_witness :
  Forall (fun m =>
            is_heap 32 (MKZQ m) /\
            forall c, 0 <= c < Zlen (MKZA m) ->
                      MkzIsAlive sample_INF (MKZA m) c <> 0 ->
                      root_cost 32 m <= cost 32 (MKZQ m) (rd (MKZA m) c))
         (run_states 32 sample_INF sample_weightSum sample_minCostUsingMST
                     sample_incrS sample_decrS
                     (sample_matrix MKZTYPE_CAVALLAR 0) sample_run).
Proof.
  apply (X10_run_root_least 32 sample_INF ltac:(lia) sample_weightSum
           sample_minCostUsingMST sample_minCostUsingMST_int
           sample_incrS sample_decrS (sample_matrix MKZTYPE_CAVALLAR 0));
    try sample_check.
  repeat constructor; zdecide.
Defined.

(** [X11_MkzCount_range] on column 4 of the sample under the Pure
    Markowitz policy, whose cost -5 is stored as 0. *)
Lemma X11_witness :
  pureMkz 32 (sample_matrix MKZTYPE_PURE 0) 4 = -5 /\
  0 <= MkzCount 32 sample_weightSum sample_minCostUsingMST
                (sample_matrix MKZTYPE_PURE 0) 4 < 2 ^ 31.
Proof.
  split; [vm_compute; reflexivity|].
  apply (X11_MkzCount_range 32 ltac:(lia) sample_weightSum
           sample_minCostUsingMST sample_minCostUsingMST_int).
Defined.

(** [X12_lightColAndMkz_pure] on the sample with [wmstmax] set to 1. *)
Lemma X12_witness :
  let mat := mk_filter_matrix [0; 1; 2; 3; 5]
               (R (sample_matrix MKZTYPE_LIGHT 0))
               (rowLength (sample_matrix MKZTYPE_LIGHT 0)) 1 MKZTYPE_LIGHT
               (MKZQ (sample_matrix MKZTYPE_LIGHT 0))
               (MKZA (sample_matrix MKZTYPE_LIGHT 0)) in
  wmstmax mat <= 1 /\
  lightColAndMkz 32 sample_weightSum sample_minCostUsingMST mat 4
  = pureMkz 32 mat 4.
Proof.
  intros mat. split; [zdecide|].
  apply (X12_lightColAndMkz_pure 32 sample_weightSum sample_minCostUsingMST
           mat). zdecide.
Defined.

(** [X13_MkzIsHeap_checks] on the queue of the sample, a heap. *)
Lemma X13_witness :
  is_heap 32 (MKZQ (sample_matrix MKZTYPE_CAVALLAR 0)) /\
  MkzIsHeap 32 (MKZQ (sample_matrix MKZTYPE_CAVALLAR 0)) = 1.
Proof.
  assert (Hh : is_heap 32 (MKZQ (sample_matrix MKZTYPE_CAVALLAR 0)))
    by sample_check.
  split; [exact Hh|].
  destruct (X13_MkzIsHeap_checks 32 ltac:(lia)
              (MKZQ (sample_matrix MKZTYPE_CAVALLAR 0)))
    as (_ & _ & H & _); [sample_check|].
  exact (H Hh).
Defined.

(** [X14_MkzPrintQueue_levels] on [odd_queue], whose three slots fill
    levels 0 and 1: the label of level 2 is printed with no entry. *)
Lemma X14_witness :
  MkzPrintQueue 32 odd_queue =
  [OutLevel 0; OutEntry 1 0; OutNewline; OutLevel 1;
   OutEntry 2 1; OutEntry 0 2; OutNewline; OutLevel 2; OutNewline].
Proof.
  rewrite (X14_MkzPrintQueue_levels 32 ltac:(lia) odd_queue);
    [|sample_check].
  vm_compute. reflexivity.
Defined.
